(** * Guardia planning app: the core of the clean static version
    (src/unnamed/part_000, the IIFE "Guardia Planning App – clean static
    version") and the dual bookkeeping of src/script.js.

    The clean version keeps one aggregate
      state = { config: {slotsPerResident}, residents, shifts, picks, finished }
    where [picks] is a JS object from resident name to an array of shift ids.
    We model it with a record whose [picks] field is a stdpp [gmap]. *)

From Stdlib Require Import ZArith Ascii String List Sorted Permutation Lia.
From stdpp Require Import base gmap strings list.
Import ListNotations.

Local Open Scope string_scope.

(* ------------------------------------------------------------------ *)
(** ** Calendar-day classifier ([weekdayUTC], [isMon], [isFri]) *)
Module Calendar.

Local Open Scope Z_scope.

(** [Number(p)] on the pieces of an ISO date: the empty string is 0, a run
    of decimal digits is its value, anything else is NaN ([None]).
    Dates come from an [<input type=date>] ("YYYY-MM-DD"). *)
Definition digit_val (c : ascii) : option Z :=
  let n := nat_of_ascii c in
  if andb (Nat.leb 48 n) (Nat.leb n 57) then Some (Z.of_nat (n - 48)) else None.

Fixpoint digits_acc (s : string) (acc : Z) : option Z :=
  match s with
  | EmptyString => Some acc
  | String c r =>
      match digit_val c with
      | Some d => digits_acc r (acc * 10 + d)
      | None => None
      end
  end.

Definition Number (s : string) : option Z := digits_acc s 0.

(** [str.split(sep)] *)
Fixpoint split_on (sep : ascii) (s : string) : list string :=
  match s with
  | EmptyString => [EmptyString]
  | String c r =>
      if Ascii.eqb c sep then EmptyString :: split_on sep r
      else match split_on sep r with
           | [] => [String c EmptyString]
           | w :: ws => String c w :: ws
           end
  end.

(** Days since 1970-01-01 of a proleptic Gregorian date (month 1..12). *)
Definition days_from_civil (y m d : Z) : Z :=
  let y' := if Z.leb m 2 then y - 1 else y in
  let era := y' / 400 in
  let yoe := y' - era * 400 in
  let mp := if Z.ltb 2 m then m - 3 else m + 9 in
  let doy := (153 * mp + 2) / 5 + d - 1 in
  let doe := yoe * 365 + yoe / 4 - yoe / 100 + doy in
  era * 146097 + doe - 719468.

(** ECMAScript MakeDay(year, month, date): 0-based month that may overflow. *)
Definition MakeDay (year month date : Z) : Z :=
  let ym := year + month / 12 in
  let mn := month mod 12 in
  days_from_civil ym (mn + 1) 1 + date - 1.

(** [Date.UTC(y, m, d)] in days; years 0..99 are read as 19xx.
    (The time-value clip at +-8.64e15 ms is not modelled.) *)
Definition Date_UTC_day (y m d : Z) : Z :=
  let yr := if andb (Z.leb 0 y) (Z.leb y 99) then 1900 + y else y in
  MakeDay yr m d.

(** [getUTCDay()]: 0 Sunday .. 6 Saturday; 1970-01-01 was a Thursday. *)
Definition getUTCDay (day : Z) : Z := (day + 4) mod 7.

Definition field (parts : list string) (i : nat) : option Z :=
  match nth_error parts i with
  | Some p => Number p
  | None => None
  end.

(** [const [y, m, d] = iso.split("-").map(Number);
     return new Date(Date.UTC(y, m - 1, d)).getUTCDay();]
    [None] is the NaN weekday of an unparsable date. *)
Definition weekdayUTC (iso : string) : option Z :=
  let parts := split_on "-"%char iso in
  match field parts 0, field parts 1, field parts 2 with
  | Some y, Some m, Some d => Some (getUTCDay (Date_UTC_day y (m - 1) d))
  | _, _, _ => None
  end.

Definition weekday_is (iso : string) (k : Z) : bool :=
  match weekdayUTC iso with
  | Some w => Z.eqb w k
  | None => false
  end.

Definition isMon (iso : string) : bool := weekday_is iso 1.
Definition isFri (iso : string) : bool := weekday_is iso 5.
Definition isMonOrFri (iso : string) : bool := isMon iso || isFri iso.

(** [String(n)] for an integer [n >= 0]: its decimal digits, built from
    the last one ([fuel] only bounds the recursion; [n + 1] steps are
    always enough). *)
Fixpoint digits_of (fuel : nat) (n : Z) (acc : string) : string :=
  match fuel with
  | O => acc
  | S f =>
      let acc' := String (ascii_of_nat (48 + Z.to_nat (n mod 10))) acc in
      if Z.ltb n 10 then acc' else digits_of f (n / 10) acc'
  end.

Definition Number_toString (n : Z) : string := digits_of (S (Z.to_nat n)) n EmptyString.

(** [s.padStart(2, "0")] *)
Fixpoint zeros (k : nat) : string :=
  match k with
  | O => EmptyString
  | S k => String "0"%char (zeros k)
  end.

Definition padStart2 (s : string) : string := zeros (2 - String.length s) ++ s.

(** The calendar date of a day number (days since 1970-01-01, proleptic
    Gregorian), as [(year, month 1..12, day 1..31)]. *)
Definition civil_from_days (days : Z) : Z * Z * Z :=
  let z := days + 719468 in
  let era := z / 146097 in
  let doe := z - era * 146097 in
  let yoe := (doe - doe / 1460 + doe / 36524 - doe / 146096) / 365 in
  let y := yoe + era * 400 in
  let doy := doe - (365 * yoe + yoe / 4 - yoe / 100) in
  let mp := (5 * doy + 2) / 153 in
  let d := doy - (153 * mp + 2) / 5 + 1 in
  let m := if Z.ltb mp 10 then mp + 3 else mp - 9 in
  (if Z.leb m 2 then y + 1 else y, m, d).

(** [getUTCDate()] *)
Definition getUTCDate (day : Z) : Z := snd (civil_from_days day).

End Calendar.

Import Calendar.

(* ------------------------------------------------------------------ *)
(** ** Data model of the clean version *)

(** [{ id, date:'YYYY-MM-DD', type }]; the cached [assigned] array of a
    shift is rebuilt from [picks] by [renderPlanning] and is not read by
    the core functions below. *)
Record Shift := mkShift { id : string; date : string; type : string }.

Record State := mkState {
  slotsPerResident : nat;
  residents : list string;
  shifts : list Shift;
  picks : gmap string (list string)
}.

Definition set_picks (st : State) (p : gmap string (list string)) : State :=
  mkState (slotsPerResident st) (residents st) (shifts st) p.

Definition set_shifts (st : State) (l : list Shift) : State :=
  mkState (slotsPerResident st) (residents st) l (picks st).

(** [state.picks[r] || []] *)
Definition picksOf (st : State) (r : string) : list string :=
  default [] (picks st !! r).

(** [arr.includes(x)] on strings *)
Definition includes (l : list string) (x : string) : bool :=
  existsb (String.eqb x) l.

(** [arr.filter(x => x !== v)] *)
Definition without (l : list string) (v : string) : list string :=
  List.filter (fun x => negb (String.eqb x v)) l.

(** [toUpperCase] on ASCII letters. *)
Definition upper_char (c : ascii) : ascii :=
  let n := nat_of_ascii c in
  if andb (Nat.leb 97 n) (Nat.leb n 122) then ascii_of_nat (n - 32) else c.

Fixpoint toUpperCase (s : string) : string :=
  match s with
  | EmptyString => EmptyString
  | String c r => String (upper_char c) (toUpperCase r)
  end.

(** [const idFor = (date, type) => `${date}__${type.toUpperCase()}`;] *)
Definition idFor (d t : string) : string := d ++ "__" ++ toUpperCase t.

(** [state.shifts.find(x => x.id === id)] *)
Definition find_shift (shs : list Shift) (i : string) : option Shift :=
  List.find (fun x => String.eqb (id x) i) shs.

Record Stats := mkStats { total : nat; monfri : nat }.

(** [statsFor(name)] *)
Definition statsFor (st : State) (name : string) : Stats :=
  let ids := picksOf st name in
  mkStats (length ids)
    (fold_left (fun c i =>
       c + match find_shift (shifts st) i with
           | Some s => if isMonOrFri (date s) then 1 else 0
           | None => 0
           end) ids 0).

(** [whoIsAssigned(shiftId)] *)
Definition whoIsAssigned (st : State) (shiftId : string) : list string :=
  List.filter (fun r => includes (picksOf st r) shiftId) (residents st).

(* ------------------------------------------------------------------ *)
(** ** [Array.prototype.sort] with a comparator

    [arr.slice().sort(cmp)] is modelled by an insertion sort that keeps
    the order of elements the comparator does not separate (as V8's
    binary insertion does): an element goes in front of the first one it
    compares strictly below. *)
Section Sorting.
Context {A : Type} (cmp : A -> A -> Z).

Fixpoint insert_by (x : A) (l : list A) : list A :=
  match l with
  | [] => [x]
  | y :: ys => if Z.ltb (cmp x y) 0 then x :: y :: ys else y :: insert_by x ys
  end.

Definition sort_by (l : list A) : list A :=
  fold_left (fun acc x => insert_by x acc) l [].

End Sorting.

(* ------------------------------------------------------------------ *)
(** ** Fairness ranking *)

(** [const FAIRNESS = { monFriWeight: 1 };] *)
Definition monFriWeight : Z := 1.

(** [better(a, b)] on the tuples [[total, monfri]] *)
Definition better (a b : Stats) : Z :=
  if negb (Nat.eqb (total a) (total b)) then (Z.of_nat (total a) - Z.of_nat (total b))%Z
  else if Z.ltb 0 monFriWeight then
    if negb (Nat.eqb (monfri a) (monfri b)) then (Z.of_nat (monfri a) - Z.of_nat (monfri b))%Z
    else 0%Z
  else 0%Z.

(** The fairness key order: [(total, monfri)] lexicographically. *)
Definition key_leb (a b : Stats) : bool :=
  Nat.ltb (total a) (total b) || (Nat.eqb (total a) (total b) && Nat.leb (monfri a) (monfri b)).

(** Two values ordered by their fairness key. *)
Definition key_le {A} (key : A -> Stats) (a b : A) : Prop := key_leb (key a) (key b) = true.

Definition key_lt (a b : Stats) : Prop :=
  (total a < total b)%nat \/ (total a = total b /\ (monfri a < monfri b)%nat).

(** The random part of the comparators, [Math.random() - 0.5], is a
    parameter: [rnd ra rb] is the value drawn when [ra] and [rb] tie. *)
Section Resolver.
Variable rnd : string -> string -> Z.

(** comparator of [resolveConflictsFair]: [better(metric(ra), metric(rb))],
    random on a tie *)
Definition resolveCmp (st : State) (ra rb : string) : Z :=
  let c := better (statsFor st ra) (statsFor st rb) in
  if negb (Z.eqb c 0) then c else rnd ra rb.

(** comparator of [randomAssignRemaining] *)
Definition assignCmp (st : State) (ra rb : string) : Z :=
  let a := statsFor st ra in
  let b := statsFor st rb in
  if negb (Nat.eqb (total a) (total b)) then (Z.of_nat (total a) - Z.of_nat (total b))%Z
  else if negb (Nat.eqb (monfri a) (monfri b)) then (Z.of_nat (monfri a) - Z.of_nat (monfri b))%Z
  else rnd ra rb.

(** [state.picks[r] = state.picks[r].filter(id => id !== s.id)] *)
Definition unpick (st : State) (r sid : string) : State :=
  set_picks st (<[r := without (picksOf st r) sid]> (picks st)).

(** [for (const r of contenders) { if (r === winner) continue;
       state.picks[r] = state.picks[r].filter(id => id !== s.id); }] *)
Definition unpickAllBut (w sid : string) (cs : list string) (st : State) : State :=
  fold_left (fun acc r => if String.eqb r w then acc else unpick acc r sid) cs st.

(** [const ranked = contenders.slice().sort(...); const winner = ranked[0];] *)
Definition winner (st : State) (contenders : list string) : string :=
  hd "" (sort_by (resolveCmp st) contenders).

(** One iteration of [for (const s of state.shifts)] in
    [resolveConflictsFair]; [st0] is the state [idToResidents] was built
    from, [st] the current one. *)
Definition resolveShift (st0 st : State) (s : Shift) : State :=
  let contenders := whoIsAssigned st0 (id s) in
  if Nat.leb (length contenders) 1 then st
  else
    unpickAllBut (winner st contenders) (id s) contenders st.

(** [resolveConflictsFair()] *)
Definition resolveConflictsFair (st : State) : State :=
  fold_left (resolveShift st) (shifts st) st.

(** [!state.picks[c].includes(s.id) && state.picks[c].length < slotsPerResident] *)
Definition eligible (st : State) (sid r : string) : bool :=
  negb (includes (picksOf st r) sid) && Nat.ltb (length (picksOf st r)) (slotsPerResident st).

(** [state.picks[c].push(s.id)] *)
Definition push_pick (st : State) (r sid : string) : State :=
  set_picks st (<[r := (picksOf st r ++ [sid])%list]> (picks st)).

(** The loop body of [randomAssignRemaining] for one empty shift: the
    top-ranked resident [ranked[0]] if eligible, otherwise the first
    eligible one of [ranked.slice(1)], otherwise nobody. With no residents
    at all, [ranked[0]] is [undefined] and [state.picks[undefined].includes]
    throws a TypeError: [None]. *)
Definition assignShift (st : State) (s : Shift) : option State :=
  match sort_by (assignCmp st) (residents st) with
  | [] => None
  | chosen :: rest =>
      if eligible st (id s) chosen then Some (push_pick st chosen (id s))
      else match List.find (eligible st (id s)) rest with
           | Some cand => Some (push_pick st cand (id s))
           | None => Some st
           end
  end.

(** [const empty = state.shifts.filter(s => whoIsAssigned(s.id).length === 0);] *)
Definition emptyShifts (st : State) : list Shift :=
  List.filter (fun s => Nat.eqb (length (whoIsAssigned st (id s))) 0) (shifts st).

(** [randomAssignRemaining()]; [None] when it throws. *)
Definition randomAssignRemaining (st : State) : option State :=
  fold_left (fun o s => match o with Some st' => assignShift st' s | None => None end)
    (emptyShifts st) (Some st).

End Resolver.

(* ------------------------------------------------------------------ *)
(** ** Shift registry and pick ledger commands *)

(** Error reports of the commands (each is an [alert]/[toast] in the UI):
    [MissingInput] "Please choose date and type.",
    [DuplicateShift] "That guardia already exists.",
    [QuotaExceeded] "Max N guardias.". *)
Inductive Err := MissingInput | DuplicateShift | QuotaExceeded.

(** [els.addGuardiaBtn] click handler, with the form's date and type. *)
Definition addShift (st : State) (d t : string) : State * option Err :=
  if String.eqb d "" || String.eqb t "" then (st, Some MissingInput)
  else
    let i := idFor d t in
    if existsb (fun s => String.eqb (id s) i) (shifts st) then (st, Some DuplicateShift)
    else (set_shifts st (shifts st ++ [mkShift i d t])%list, None).

(** The "Remove" button of [renderAdminList]:
    [state.shifts = state.shifts.filter(x => x.id !== s.id);
     for (const r of state.residents) state.picks[r] = state.picks[r].filter(id => id !== s.id);] *)
Definition removeShift (st : State) (sid : string) : State :=
  fold_left (fun acc r => unpick acc r sid) (residents st)
    (set_shifts st (List.filter (fun x => negb (String.eqb (id x) sid)) (shifts st))).

(** The admin and planning listings:
    [[...state.shifts].sort((a, b) => (a.date < b.date ? -1 : a.date > b.date ? 1
                                        : a.type.localeCompare(b.type)))];
    [localeCompare] is left as a parameter. *)
Definition listShifts (localeCompare : string -> string -> Z) (st : State) : list Shift :=
  sort_by (fun a b => if String.ltb (date a) (date b) then (-1)%Z
                      else if String.ltb (date b) (date a) then 1%Z
                      else localeCompare (type a) (type b)) (shifts st).

(** The checkbox [change] handler of [renderPlanning] when the box becomes
    checked (a claim by [name] of shift [sid]):
    [if (arr.length >= slotsPerResident) { toast(...); return; }
     if (!arr.includes(s.id)) arr.push(s.id);] *)
Definition claim (st : State) (name sid : string) : State * option Err :=
  let arr := picksOf st name in
  if Nat.leb (slotsPerResident st) (length arr) then (st, Some QuotaExceeded)
  else if includes arr sid then (st, None)
  else (push_pick st name sid, None).

(** ... and when it becomes unchecked:
    [state.picks[name] = arr.filter(x => x !== s.id);] *)
Definition unclaim (st : State) (name sid : string) : State := unpick st name sid.

(** A resident's sequence of claims and unclaims. *)
Inductive LedgerOp := OpClaim (name sid : string) | OpUnclaim (name sid : string).

Definition runOp (st : State) (op : LedgerOp) : State :=
  match op with
  | OpClaim n s => fst (claim st n s)
  | OpUnclaim n s => unclaim st n s
  end.

Definition runOps (st : State) (ops : list LedgerOp) : State := fold_left runOp ops st.

(* ------------------------------------------------------------------ *)
(** ** Sample states *)

Definition S1 : Shift := mkShift (idFor "2025-09-01" "Puerta") "2025-09-01" "Puerta".
Definition S2 : Shift := mkShift (idFor "2025-09-03" "Puerta") "2025-09-03" "Puerta".
Definition S3 : Shift := mkShift (idFor "2025-09-04" "Traumato") "2025-09-04" "Traumato".
Definition S4 : Shift := mkShift (idFor "2025-09-10" "Observa") "2025-09-10" "Observa".

(** The spec's scenario: A and B both hold S1 (Monday 2025-09-01); A
    holds nothing else, B also holds S2 (a Wednesday) and S3 (a Thursday).
    A's key is (1, 1); B's is (3, 1), since S1 itself is a Monday. *)
Definition scenario : State :=
  mkState 4 ["A"; "B"] [S1; S2; S3; S4]
    (<["A" := [id S1]]> (<["B" := [id S1; id S2; id S3]]> ∅)).

(** Shifts X = S1 (Monday), Y = S2, Q = S3: C and A contend for X, A and B
    for Y. A: [X; Y] (2, 1), B: [Y; Q] (2, 0), C: [X] (1, 1). *)
Definition freshness : State :=
  mkState 4 ["A"; "B"; "C"] [S1; S2; S3]
    (<["A" := [id S1; id S2]]> (<["B" := [id S2; id S3]]> (<["C" := [id S1]]> ∅))).

(** Everybody at quota (1 slot each) and S4 unclaimed. *)
Definition allFull : State :=
  mkState 1 ["A"; "B"] [S1; S2; S4]
    (<["A" := [id S1]]> (<["B" := [id S2]]> ∅)).

(** Room for S4: B has a free slot. *)
Definition roomLeft : State :=
  mkState 2 ["A"; "B"] [S1; S2; S4]
    (<["A" := [id S1; id S2]]> (<["B" := [id S2]]> ∅)).

(** A at quota (4) holding S1..S4. *)
Definition atQuota : State :=
  mkState 4 ["A"; "B"] [S1; S2; S3; S4]
    (<["A" := [id S1; id S2; id S3; id S4]]> (<["B" := []]> ∅)).

Definition key_ltb (a b : Stats) : bool :=
  Nat.ltb (total a) (total b) || (Nat.eqb (total a) (total b) && Nat.ltb (monfri a) (monfri b)).

(** Some contender's key is strictly below every other contender's. *)
Definition uniqueMin (st : State) (cs : list string) : bool :=
  existsb (fun w => forallb (fun c => String.eqb c w || key_ltb (statsFor st w) (statsFor st c)) cs) cs.

(** No contested shift of the pass meets a tie on the smallest key. *)
Fixpoint noTies (rnd : string -> string -> Z) (st0 : State) (shs : list Shift) (st : State) : bool :=
  match shs with
  | [] => true
  | s :: rest =>
      let cs := whoIsAssigned st0 (id s) in
      (Nat.leb (length cs) 1 || uniqueMin st cs)
      && noTies rnd st0 rest (resolveShift rnd st0 st s)
  end.

(** [els.randomBtn] click handler: the state it leaves and the toast. *)
Definition randomClick (rnd : string -> string -> Z) (st : State) : option State * string :=
  (randomAssignRemaining rnd st, "Random assignment complete.").

(** The initial state: [DEFAULT_RESIDENTS], [DEFAULT_SLOTS_PER_RESIDENT],
    no shifts, and [hydrateResidents()] giving every resident an empty
    pick list. *)
Definition DEFAULT_RESIDENTS : list string := ["Resident 1"; "Resident 2"; "Resident 3"; "Resident 4"].

Definition hydrate (rs : list string) (p : gmap string (list string)) : gmap string (list string) :=
  fold_left (fun m r => match m !! r with Some _ => m | None => <[r := []]> m end) rs p.

Definition initialState : State := mkState 4 DEFAULT_RESIDENTS [] (hydrate DEFAULT_RESIDENTS ∅).

(** A sequence of claims that pushes "A" against the quota. *)
Definition quotaOps : list LedgerOp :=
  [OpClaim "A" (id S1); OpClaim "A" (id S2); OpClaim "A" (id S3); OpClaim "A" (id S4);
   OpClaim "A" (id S1); OpUnclaim "A" (id S2); OpClaim "B" (id S2)].

(* ------------------------------------------------------------------ *)
(** ** [renderPlanning]: the table's [assigned] column

    Before it draws the table, [renderPlanning] rebuilds the cached
    [assigned] array of every shift from the picks:
      [const byId = Object.fromEntries(state.shifts.map(s => [s.id, s]));
       for (const s of state.shifts) s.assigned = [];
       for (const r of state.residents)
         for (const sid of state.picks[r])
           if (byId[sid]) byId[sid].assigned.push(r);]
    and marks a row as a conflict when [(s.assigned || []).length > 1]. *)

(** Keys a plain object inherits from [Object.prototype]. [byId[sid]] on
    one of them that is no shift id is a function (or the prototype):
    truthy, with no [assigned] array, so the [push] throws. *)
Definition Object_prototype_keys : list string :=
  ["constructor"; "hasOwnProperty"; "isPrototypeOf"; "propertyIsEnumerable";
   "toLocaleString"; "toString"; "valueOf"; "__proto__";
   "__defineGetter__"; "__defineSetter__"; "__lookupGetter__"; "__lookupSetter__"].

(** [Object.fromEntries(state.shifts.map(s => [s.id, s]))]: a later shift
    with the same id replaces an earlier one; the value kept is the
    shift's position in [state.shifts]. *)
Definition byId (shs : list Shift) : gmap string nat :=
  (fold_left (fun (acc : gmap string nat * nat) s => (<[id s := acc.2]> acc.1, S acc.2)) shs (∅, 0%nat)).1.

(** [if (byId[sid]) byId[sid].assigned.push(r);] on the arrays [a], one
    per shift; [None] once the loop has thrown. *)
Definition pushAssigned (m : gmap string nat) (r : string) (oa : option (list (list string))) (sid : string)
    : option (list (list string)) :=
  match oa with
  | None => None
  | Some a =>
      match m !! sid with
      | Some k => Some (<[k := (default [] (a !! k) ++ [r])%list]> a)
      | None => if existsb (String.eqb sid) Object_prototype_keys then None else Some a
      end
  end.

(** The rebuilt [assigned] arrays in registry order; [None] when the loop
    throws ([for...of] over the missing pick array of a resident, or an
    inherited key as above). *)
Definition rebuildAssigned (st : State) : option (list (list string)) :=
  let m := byId (shifts st) in
  fold_left (fun oa r =>
     match picks st !! r with
     | Some ps => fold_left (pushAssigned m r) ps oa
     | None => None
     end) (residents st) (Some ((fun _ => []) <$> shifts st)).

(** The rows of the table, in display order: each row carries its shift,
    its rebuilt [assigned] array and whether it gets the [conflict] class.
    [sorted.forEach(s => { if ((s.assigned || []).length > 1) conflicts.add(s.id);
                           if (conflicts.has(s.id)) tr.classList.add("conflict"); ... })]
    The set [conflicts] is the list [conf] of the ids added so far. *)
Fixpoint markRows (conf : list string) (rows : list (list string * Shift))
    : list (Shift * list string * bool) :=
  match rows with
  | [] => []
  | (a, s) :: rest =>
      let conf' := if Nat.ltb 1 (length a) then id s :: conf else conf in
      (s, a, includes conf' (id s)) :: markRows conf' rest
  end.

(** [renderPlanning]'s table: rebuild [assigned], sort a copy of the shifts
    by [(a.date < b.date ? -1 : a.date > b.date ? 1 : a.type.localeCompare(b.type))]
    (each shift object carrying its [assigned] array along) and mark the rows;
    [None] when the rebuild throws. *)
Definition planningRows (localeCompare : string -> string -> Z) (st : State)
    : option (list (Shift * list string * bool)) :=
  match rebuildAssigned st with
  | None => None
  | Some a =>
      Some (markRows []
        (sort_by (fun p q =>
                    let a := p.2 in let b := q.2 in
                    if String.ltb (date a) (date b) then (-1)%Z
                    else if String.ltb (date b) (date a) then 1%Z
                    else localeCompare (type a) (type b)) (zip a (shifts st))))
  end.

(** A cell of [els.calendarGrid]: one of the seven weekday headers, a
    hidden padding cell, or a day with its number, its ISO date, whether
    it gets the [mon] and [fri] classes, and the shifts of its badges. *)
Inductive CalCell :=
| Header (name : string)
| Pad
| Day (d : nat) (iso : string) (mon fri : bool) (badges : list Shift).

(** [state.shifts.map(s => s.date).sort()[0]], or [toIso(new Date())]
    (the parameter [today]) when there is no shift. *)
Definition baseIso (today : string) (st : State) : string :=
  match sort_by (fun a b => if String.ltb a b then (-1)%Z else if String.ltb b a then 1%Z else 0%Z)
          (map date (shifts st)) with
  | x :: _ => x
  | [] => today
  end.

(** [`${by}-${String(bm).padStart(2,"0")}-${String(d).padStart(2,"0")}`] *)
Definition calIso (by' bm : Z) (d : nat) : string :=
  Calendar.Number_toString by' ++ "-" ++ Calendar.padStart2 (Calendar.Number_toString bm) ++ "-" ++
  Calendar.padStart2 (Calendar.Number_toString (Z.of_nat d)).

(** [renderCalendar()]: the cells appended to the grid, in order. With a
    base date that does not parse, [first] is an invalid date, the offset
    and [daysInMonth] are NaN and both loops run zero times. *)
Definition renderCalendar (today : string) (st : State) : list CalCell :=
  let parts := Calendar.split_on "-"%char (baseIso today st) in
  (map Header ["Mon"; "Tue"; "Wed"; "Thu"; "Fri"; "Sat"; "Sun"] ++
  match Calendar.field parts 0, Calendar.field parts 1 with
  | Some by', Some bm =>
      let first := Calendar.Date_UTC_day by' (bm - 1) 1 in
      let startDow := Calendar.getUTCDay first in
      let daysInMonth := Calendar.getUTCDate (Calendar.Date_UTC_day by' bm 0) in
      let offsetFromMonday := ((startDow + 6) mod 7)%Z in
      repeat Pad (Z.to_nat offsetFromMonday) ++
      map (fun d => let iso := calIso by' bm d in
                    Day d iso (Calendar.isMon iso) (Calendar.isFri iso)
                      (List.filter (fun s => String.eqb (date s) iso) (shifts st)))
          (seq 1 (Z.to_nat daysInMonth))
  | _, _ => []
  end)%list.

(** ** The setup lifecycle: [state.setupDone] and [state.finished]

    The rest of the app state next to the [State] above. *)
Record App := mkApp { setupDone : bool; appState : State; finished : gmap string bool }.

Inductive AppErr := NoShifts | SetupNotDone.

(** [els.adminFinishBtn]:
    [if (state.shifts.length === 0) { alert(...); return; } state.setupDone = true;] *)
Definition adminFinish (a : App) : App * option AppErr :=
  match shifts (appState a) with
  | [] => (a, Some NoShifts)
  | _ :: _ => (mkApp true (appState a) (finished a), None)
  end.

(** [els.resetSetupBtn] once confirmed:
    [state.shifts = []; for (const r of state.residents) { state.picks[r] = [];
     state.finished[r] = false; } state.setupDone = false;]
    (the two maps are separate objects, so each is updated by its own loop). *)
Definition resetSetup (a : App) : App :=
  let st := appState a in
  mkApp false
    (mkState (slotsPerResident st) (residents st) []
       (fold_left (fun m r => <[r := []]> m) (residents st) (picks st)))
    (fold_left (fun m r => <[r := false]> m) (residents st) (finished a)).

(** [els.startBtn]: [None] when no name is chosen ([if (!name) return;]),
    [Some (inl SetupNotDone)] for the alert, [Some (inr name)] when the
    planning view opens for [name]. *)
Definition startPlanning (a : App) (name : string) : option (AppErr + string) :=
  if String.eqb name "" then None
  else if negb (setupDone a) then Some (inl SetupNotDone)
  else Some (inr name).

(** [els.addGuardiaBtn] on the app state. *)
Definition appAddShift (a : App) (d t : string) : App * option Err :=
  let '(st, e) := addShift (appState a) d t in (mkApp (setupDone a) st (finished a), e).

(* ------------------------------------------------------------------ *)
(** ** src/script.js: [shift.assigned] kept next to [userPicks]

    This variant stores the assignment twice: each shift object has an
    [assigned] array of user names and [userPicks] maps a user to an array
    of shift ids. *)
Module Legacy.

(** [const users = [...]; const maxShiftsPerUser = 4;] *)
Definition users : list string := DEFAULT_RESIDENTS.
Definition maxShiftsPerUser : nat := 4.

Record LShift := mkLShift { lid : string; ldate : string; ltype : string; assigned : list string }.

Record LState := mkLState {
  lshifts : list LShift;
  userPicks : gmap string (list string);
  finishedUsers : gmap string bool
}.

Definition upicks (st : LState) (u : string) : list string := default [] (userPicks st !! u).

Definition set_assigned (sh : LShift) (a : list string) : LShift :=
  mkLShift (lid sh) (ldate sh) (ltype sh) a.

(** Mutating the object [shifts.find(s => s.id === shiftId)]: only the
    first shift with that id changes. *)
Fixpoint replace_first (p : LShift -> bool) (f : LShift -> LShift) (l : list LShift) : list LShift :=
  match l with
  | [] => []
  | x :: xs => if p x then f x :: xs else x :: replace_first p f xs
  end.

(** [const idx = arr.indexOf(v); if (idx >= 0) arr.splice(idx, 1);] *)
Fixpoint remove_first (v : string) (l : list string) : list string :=
  match l with
  | [] => []
  | x :: xs => if String.eqb x v then xs else x :: remove_first v xs
  end.

(** [handleSelect(shiftId)] for the logged-in user [currentUser]. *)
Definition handleSelect (currentUser : option string) (shiftId : string) (st : LState) : LState :=
  match currentUser with
  | None => st
  | Some u =>
      if default false (finishedUsers st !! u) then st else
      match List.find (fun s => String.eqb (lid s) shiftId) (lshifts st) with
      | None => st
      | Some sh =>
          if includes (assigned sh) u then
            mkLState
              (replace_first (fun s => String.eqb (lid s) shiftId)
                 (fun s => set_assigned s (List.filter (fun x => negb (String.eqb x u)) (assigned s)))
                 (lshifts st))
              (<[u := remove_first shiftId (upicks st u)]> (userPicks st))
              (finishedUsers st)
          else if Nat.leb maxShiftsPerUser (length (upicks st u)) then st
          else
            mkLState
              (replace_first (fun s => String.eqb (lid s) shiftId)
                 (fun s => set_assigned s (assigned s ++ [u])%list)
                 (lshifts st))
              (<[u := (upicks st u ++ [shiftId])%list]> (userPicks st))
              (finishedUsers st)
      end
  end.

(** [addNewShift()] with the form's date and type:
    [const id = `${date}-${type.toLowerCase()}`]; the lower-casing is
    written out on ASCII letters. *)
Definition lower_char (c : ascii) : ascii :=
  let n := nat_of_ascii c in
  if andb (Nat.leb 65 n) (Nat.leb n 90) then ascii_of_nat (n + 32) else c.

Fixpoint toLowerCase (s : string) : string :=
  match s with
  | EmptyString => EmptyString
  | String c r => String (lower_char c) (toLowerCase r)
  end.

Definition addNewShift (d t : string) (st : LState) : LState :=
  if String.eqb d "" then st else
  let i := d ++ "-" ++ toLowerCase t in
  if existsb (fun s => String.eqb (lid s) i) (lshifts st) then st
  else mkLState (lshifts st ++ [mkLShift i d t []])%list (userPicks st) (finishedUsers st).

(** [parseInt(s, 10)]: the leading run of decimal digits, NaN ([None])
    when there is none (leading blanks and signs are not modelled). *)
Fixpoint digit_prefix (s : string) (acc : Z) (seen : bool) : option Z :=
  match s with
  | EmptyString => if seen then Some acc else None
  | String c r =>
      match digit_val c with
      | Some d => digit_prefix r (acc * 10 + d)%Z true
      | None => if seen then Some acc else None
      end
  end.

Definition parseInt (s : option string) : option Z :=
  match s with Some p => digit_prefix p 0 false | None => None end.

Section Legacy_resolver.
(** [new Date(d).getDay()] of the last fallback depends on the local time
    zone; [localDay] is that value ([None] for an invalid date). *)
Variable localDay : string -> option Z.
(** [Math.random() < 0.5] when [res] is compared with [chosen]. *)
Variable coin : string -> string -> bool.

Definition utc_weekday (y m d : option Z) : option Z :=
  match y, m, d with
  | Some y, Some m, Some d => Some (getUTCDay (Date_UTC_day y m d))
  | _, _, _ => None
  end.

Definition is_mon_fri (w : option Z) : bool :=
  match w with Some w => Z.eqb w 1 || Z.eqb w 5 | None => false end.

(** [d.includes(c)] for a one-character [c] *)
Definition has_char (d : string) (c : ascii) : bool := existsb (Ascii.eqb c) (list_ascii_of_string d).

(** The weekday [computeMonFriCount] finds for one date string. *)
Definition legacy_weekday (d : string) : option Z :=
  if has_char d "-"%char then
    let parts := split_on "-"%char d in
    utc_weekday (parseInt (nth_error parts 0))
      (option_map (fun m => m - 1)%Z (parseInt (nth_error parts 1)))
      (parseInt (nth_error parts 2))
  else if has_char d "/"%char then
    let parts := split_on "/"%char d in
    utc_weekday (parseInt (nth_error parts 2))
      (option_map (fun m => m - 1)%Z (parseInt (nth_error parts 0)))
      (parseInt (nth_error parts 1))
  else localDay d.

(** [computeMonFriCount(user)] *)
Definition computeMonFriCount (st : LState) (user : string) : nat :=
  fold_left (fun c sid =>
    match List.find (fun s => String.eqb (lid s) sid) (lshifts st) with
    | None => c
    | Some sh => if is_mon_fri (legacy_weekday (ldate sh)) then S c else c
    end) (upicks st user) 0.

(** The [forEach] choosing the kept resident of one contested shift. *)
Definition choose (st : LState) (assignedList : list string) : option string :=
  fold_left (fun chosen res =>
    match chosen with
    | None => Some res
    | Some ch =>
        let countA := computeMonFriCount st res in
        let countB := computeMonFriCount st ch in
        if Nat.ltb countA countB then Some res
        else if Nat.eqb countA countB then
          if Nat.ltb (length (upicks st res)) (length (upicks st ch)) then Some res
          else if Nat.eqb (length (upicks st res)) (length (upicks st ch)) then
            (if coin res ch then Some res else Some ch)
          else Some ch
        else Some ch
    end) assignedList None.

(** [shift.assigned = [chosen]] for every shift with more than one name;
    [userPicks] is not touched during this loop. *)
Definition keep_chosen (st : LState) (sh : LShift) : LShift :=
  if Nat.leb (length (assigned sh)) 1 then sh
  else match choose st (assigned sh) with
       | Some c => set_assigned sh [c]
       | None => sh
       end.

(** [users.forEach(u => { userPicks[u] = []; });
     shifts.forEach(shift => shift.assigned.forEach(u => userPicks[u].push(shift.id)));]
    (a name outside [users] would make [userPicks[u].push] throw; every
    name in an [assigned] array is a user, see [Sync] below). *)
Definition push_to (i : string) (m : gmap string (list string)) (u : string) : gmap string (list string) :=
  <[u := (default [] (m !! u) ++ [i])%list]> m.

Definition rebuild (shs : list LShift) (m : gmap string (list string)) : gmap string (list string) :=
  fold_left (fun m sh => fold_left (push_to (lid sh)) (assigned sh) m) shs
    (fold_left (fun m u => <[u := []]> m) users m).

(** [resolveConflicts()] of src/script.js *)
Definition resolveConflicts (st : LState) : LState :=
  let shs := map (keep_chosen st) (lshifts st) in
  mkLState shs (rebuild shs (userPicks st)) (finishedUsers st).

End Legacy_resolver.

(** The two bookkeepings agree: the shift ids are distinct, a user is in
    a shift's [assigned] array exactly when the shift id is in the user's
    picks, the picks have no repeated id and name only existing shifts,
    and every assigned name is a user. *)
Definition Sync (st : LState) : Prop :=
  List.NoDup (map lid (lshifts st)) /\
  (forall sh u, In sh (lshifts st) -> In u users -> (In u (assigned sh) <-> In (lid sh) (upicks st u))) /\
  (forall u, In u users -> List.NoDup (upicks st u)) /\
  (forall u x, In u users -> In x (upicks st u) -> exists sh, In sh (lshifts st) /\ lid sh = x) /\
  (forall sh u, In sh (lshifts st) -> In u (assigned sh) -> In u users).

(** The state the script starts from: no shifts, empty picks. *)
Definition initial : LState :=
  mkLState [] (fold_left (fun m u => <[u := []]> m) users ∅) ∅.

(** [finishSelection()]: [finishedUsers[currentUser] = true]. *)
Definition finishSelection (currentUser : option string) (st : LState) : LState :=
  match currentUser with
  | None => st
  | Some u => mkLState (lshifts st) (userPicks st) (<[u := true]> (finishedUsers st))
  end.

(** The states the page reaches from [initial] through its event
    handlers. A logged-in [currentUser] is a name picked in the login
    list, which holds [users]; logging out ([currentUser = null]) makes
    [handleSelect] and [finishSelection] return at once. [loadState]
    puts back a state saved by [saveState] after one of these handlers. *)
Inductive Reachable : LState -> Prop :=
| reach_initial : Reachable initial
| reach_select cu sid st :
    Reachable st -> (forall u, cu = Some u -> In u users) -> Reachable (handleSelect cu sid st)
| reach_add d t st : Reachable st -> Reachable (addNewShift d t st)
| reach_finish cu st : Reachable st -> Reachable (finishSelection cu st)
| reach_resolve localDay coin st : Reachable st -> Reachable (resolveConflicts localDay coin st).

(** A short session: the admin adds one shift and two residents pick it. *)
Definition session : LState :=
  handleSelect (Some "Resident 2") "2025-09-01-puerta"
    (handleSelect (Some "Resident 1") "2025-09-01-puerta"
       (addNewShift "2025-09-01" "Puerta" initial)).

(** The page's handlers as events, run one after the other. *)
Inductive Event :=
| Select (cu : option string) (sid : string)
| AddShift (d t : string)
| Finish (cu : option string)
| Resolve (localDay : string -> option Z) (coin : string -> string -> bool).

Definition apply_event (e : Event) (st : LState) : LState :=
  match e with
  | Select cu sid => handleSelect cu sid st
  | AddShift d t => addNewShift d t st
  | Finish cu => finishSelection cu st
  | Resolve localDay coin => resolveConflicts localDay coin st
  end.

Fixpoint run (evs : list Event) (st : LState) : LState :=
  match evs with
  | [] => st
  | e :: es => run es (apply_event e st)
  end.

Definition is_resolve (e : Event) : bool :=
  match e with Resolve _ _ => true | _ => false end.

End Legacy.

(* ------------------------------------------------------------------ *)
(** ** The first version (top of src/unnamed/part_000)

    Its data are those of src/script.js ([users], shift objects with an
    [assigned] array, [userPicks], [finishedUsers]) and its [selectShift]
    is [handleSelect] word for word; only [resolveConflicts] differs. *)
Module V0.

(** [let chosen = shift.assigned[0];
     shift.assigned.forEach(res => {
       if (userPicks[res].length < userPicks[chosen].length) chosen = res; });]
    ([None] stands for [shift.assigned[0]] being [undefined] on an empty
    array; the loop below only runs on two names or more). *)
Definition choose (st : Legacy.LState) (assignedList : list string) : option string :=
  match assignedList with
  | [] => None
  | first :: _ =>
      Some (fold_left (fun chosen res =>
              if Nat.ltb (length (Legacy.upicks st res)) (length (Legacy.upicks st chosen))
              then res else chosen) assignedList first)
  end.

(** [if (shift.assigned.length <= 1) return; ... shift.assigned = [chosen];] *)
Definition keep_chosen (st : Legacy.LState) (sh : Legacy.LShift) : Legacy.LShift :=
  if Nat.leb (length (Legacy.assigned sh)) 1 then sh
  else match choose st (Legacy.assigned sh) with
       | Some c => Legacy.set_assigned sh [c]
       | None => sh
       end.

(** [resolveConflicts()] of the first version: every shift is settled
    with the picks as they were before the loop, then [userPicks] is
    rebuilt as in src/script.js. *)
Definition resolveConflicts (st : Legacy.LState) : Legacy.LState :=
  let shs := map (keep_chosen st) (Legacy.lshifts st) in
  Legacy.mkLState shs (Legacy.rebuild shs (Legacy.userPicks st)) (Legacy.finishedUsers st).

End V0.

(* ================================================================== *)
(** * Proofs *)

(** ** Insertion sort: a permutation sorted by the fairness key *)
Section SortFacts.
Context {A : Type} (cmp : A -> A -> Z) (key : A -> Stats).
Hypothesis cmp_lt : forall a b, key_lt (key a) (key b) -> (cmp a b < 0)%Z.
Hypothesis cmp_gt : forall a b, key_lt (key b) (key a) -> (0 < cmp a b)%Z.

Local Abbreviation R := (key_le key).

Lemma key_leb_false a b : key_leb a b = false -> key_lt b a.
Proof.
  unfold key_leb, key_lt. intros H.
  apply orb_false_iff in H as [H1 H2]. apply Nat.ltb_ge in H1.
  apply andb_false_iff in H2 as [H2 | H2].
  - apply Nat.eqb_neq in H2. lia.
  - apply Nat.leb_gt in H2. destruct (Nat.eq_dec (total a) (total b)); lia.
Qed.

Lemma key_leb_refl a : key_leb a a = true.
Proof. unfold key_leb. rewrite Nat.eqb_refl, Nat.leb_refl. apply orb_true_r. Qed.

Lemma key_leb_trans a b c : key_leb a b = true -> key_leb b c = true -> key_leb a c = true.
Proof.
  unfold key_leb. rewrite !orb_true_iff, !andb_true_iff, !Nat.ltb_lt, !Nat.eqb_eq, !Nat.leb_le.
  lia.
Qed.

Lemma key_lt_not_leb a b : key_lt a b -> key_leb b a = false.
Proof.
  unfold key_lt, key_leb. intros H.
  apply orb_false_iff. rewrite Nat.ltb_ge, andb_false_iff, Nat.eqb_neq, Nat.leb_gt. lia.
Qed.

Lemma R_trans : Transitive R.
Proof. intros a b c. apply key_leb_trans. Qed.

Lemma cmp_neg_R x y : (cmp x y < 0)%Z -> R x y.
Proof.
  intros H. unfold key_le. destruct (key_leb (key x) (key y)) eqn:E; [done|].
  apply key_leb_false, cmp_gt in E. lia.
Qed.

Lemma cmp_nneg_R x y : ~ (cmp x y < 0)%Z -> R y x.
Proof.
  intros H. unfold key_le. destruct (key_leb (key y) (key x)) eqn:E; [done|].
  apply key_leb_false, cmp_lt in E. lia.
Qed.

Lemma insert_by_perm x l : Permutation (x :: l) (insert_by cmp x l).
Proof.
  induction l as [|y ys IH]; simpl; [done|].
  destruct (Z.ltb (cmp x y) 0); [done|].
  etransitivity; [apply perm_swap|]. by constructor.
Qed.

Lemma insert_by_hd y x l : HdRel R y l -> R y x -> HdRel R y (insert_by cmp x l).
Proof.
  intros Hh Hyx. destruct l as [|z zs]; simpl; [by constructor|].
  destruct (Z.ltb (cmp x z) 0); constructor; [done|]. by inversion Hh.
Qed.

Lemma insert_by_sorted x l : Sorted R l -> Sorted R (insert_by cmp x l).
Proof.
  induction l as [|y ys IH]; simpl; intros Hs; [by repeat constructor|].
  destruct (Z.ltb (cmp x y) 0) eqn:E.
  - apply Z.ltb_lt, cmp_neg_R in E. constructor; [done|]. by constructor.
  - apply Z.ltb_ge in E. inversion Hs; subst. constructor; [by apply IH|].
    apply insert_by_hd; [done|]. apply cmp_nneg_R. lia.
Qed.

Lemma sort_by_spec l : Permutation l (sort_by cmp l) /\ Sorted R (sort_by cmp l).
Proof.
  unfold sort_by.
  assert (Hgen : forall acc, Sorted R acc ->
    Permutation (acc ++ l) (fold_left (fun acc x => insert_by cmp x acc) l acc) /\
    Sorted R (fold_left (fun acc x => insert_by cmp x acc) l acc)).
  { induction l as [|x xs IH]; intros acc Hacc; simpl.
    - rewrite app_nil_r. done.
    - destruct (IH (insert_by cmp x acc)) as [Hp Hs]; [by apply insert_by_sorted|].
      split; [|done]. rewrite <- Hp.
      rewrite <- (insert_by_perm x acc).
      apply Permutation_sym, Permutation_middle. }
  apply (Hgen []). constructor.
Qed.

Lemma sort_by_head_min l w rest :
  sort_by cmp l = w :: rest -> forall c, In c l -> R w c.
Proof.
  intros E c Hc. destruct (sort_by_spec l) as [Hp Hs]. rewrite E in Hp, Hs.
  apply Sorted_StronglySorted in Hs; [|apply R_trans].
  apply (Permutation_in c) in Hp; [|done].
  destruct Hp as [<-|Hin]; [apply key_leb_refl|].
  inversion Hs; subst. match goal with H : Forall _ rest |- _ => by apply (proj1 (List.Forall_forall _ _) H) end.
Qed.

(** The first element of a sorted list passing a test is below every
    element passing it. *)
Lemma find_sorted_min (p : A -> bool) l c :
  StronglySorted R l -> List.find p l = Some c -> forall z, In z l -> p z = true -> R c z.
Proof.
  induction l as [|y ys IH]; simpl; intros Hs Hf z Hz Hp; [done|].
  inversion Hs; subst. destruct (p y) eqn:Ey.
  - injection Hf as <-. destruct Hz as [<-|Hz]; [apply key_leb_refl|].
    match goal with H : Forall _ ys |- _ => by apply (proj1 (List.Forall_forall _ _) H) end.
  - destruct Hz as [<-|Hz]; [congruence|]. by apply IH.
Qed.

End SortFacts.

(** ** The comparators separate different keys *)

Lemma better_lt a b : key_lt a b -> (better a b < 0)%Z.
Proof.
  unfold key_lt, better, monFriWeight. intros [H | [H1 H2]].
  - destruct (Nat.eqb_spec (total a) (total b)); simpl; lia.
  - rewrite H1, Nat.eqb_refl. simpl.
    destruct (Nat.eqb_spec (monfri a) (monfri b)); simpl; lia.
Qed.

Lemma better_gt a b : key_lt b a -> (0 < better a b)%Z.
Proof.
  unfold key_lt, better, monFriWeight. intros [H | [H1 H2]].
  - destruct (Nat.eqb_spec (total a) (total b)); simpl; lia.
  - rewrite H1, Nat.eqb_refl. simpl.
    destruct (Nat.eqb_spec (monfri b) (monfri b)); [|done].
    destruct (Nat.eqb_spec (monfri a) (monfri b)); simpl; lia.
Qed.

Lemma resolveCmp_lt rnd st a b :
  key_lt (statsFor st a) (statsFor st b) -> (resolveCmp rnd st a b < 0)%Z.
Proof.
  intros H. unfold resolveCmp. pose proof (better_lt _ _ H).
  destruct (Z.eqb_spec (better (statsFor st a) (statsFor st b)) 0); simpl; lia.
Qed.

Lemma resolveCmp_gt rnd st a b :
  key_lt (statsFor st b) (statsFor st a) -> (0 < resolveCmp rnd st a b)%Z.
Proof.
  intros H. unfold resolveCmp. pose proof (better_gt _ _ H).
  destruct (Z.eqb_spec (better (statsFor st a) (statsFor st b)) 0); simpl; lia.
Qed.

Lemma assignCmp_lt rnd st a b :
  key_lt (statsFor st a) (statsFor st b) -> (assignCmp rnd st a b < 0)%Z.
Proof.
  unfold key_lt, assignCmp. cbv zeta. intros [H | [H1 H2]].
  - destruct (Nat.eqb_spec (total (statsFor st a)) (total (statsFor st b))); cbn [negb]; lia.
  - rewrite H1, Nat.eqb_refl. cbn [negb].
    destruct (Nat.eqb_spec (monfri (statsFor st a)) (monfri (statsFor st b))); cbn [negb]; lia.
Qed.

Lemma assignCmp_gt rnd st a b :
  key_lt (statsFor st b) (statsFor st a) -> (0 < assignCmp rnd st a b)%Z.
Proof.
  unfold key_lt, assignCmp. cbv zeta. intros [H | [H1 H2]].
  - destruct (Nat.eqb_spec (total (statsFor st a)) (total (statsFor st b))); cbn [negb]; lia.
  - rewrite H1, Nat.eqb_refl. cbn [negb].
    destruct (Nat.eqb_spec (monfri (statsFor st a)) (monfri (statsFor st b))); cbn [negb]; lia.
Qed.

(** The winner of a non-empty contender list is a contender with the
    smallest key. *)
Lemma winner_spec rnd st cs :
  cs <> [] ->
  In (winner rnd st cs) cs /\
  forall c, In c cs -> key_leb (statsFor st (winner rnd st cs)) (statsFor st c) = true.
Proof.
  intros Hne. unfold winner.
  destruct (sort_by (resolveCmp rnd st) cs) as [|w rest] eqn:E.
  - destruct (sort_by_spec (resolveCmp rnd st) (statsFor st)
                (resolveCmp_lt rnd st) (resolveCmp_gt rnd st) cs) as [Hp _].
    rewrite E in Hp. apply Permutation_sym, Permutation_nil in Hp. done.
  - simpl. split.
    + destruct (sort_by_spec (resolveCmp rnd st) (statsFor st)
                  (resolveCmp_lt rnd st) (resolveCmp_gt rnd st) cs) as [Hp _].
      rewrite E in Hp. apply (Permutation_in w (Permutation_sym Hp)). by left.
    + intros c Hc.
      exact (sort_by_head_min (resolveCmp rnd st) (statsFor st)
               (resolveCmp_lt rnd st) (resolveCmp_gt rnd st) cs w rest E c Hc).
Qed.

(** ** Updates of the pick ledger *)

Lemma picksOf_unpick st c sid r :
  picksOf (unpick st c sid) r = if String.eqb c r then without (picksOf st c) sid else picksOf st r.
Proof.
  unfold picksOf, unpick, set_picks. simpl. rewrite lookup_insert.
  destruct (String.eqb_spec c r); case_decide; subst; done.
Qed.

Lemma picksOf_push st c sid r :
  picksOf (push_pick st c sid) r = if String.eqb c r then (picksOf st c ++ [sid])%list else picksOf st r.
Proof.
  unfold picksOf, push_pick, set_picks. simpl. rewrite lookup_insert.
  destruct (String.eqb_spec c r); case_decide; subst; done.
Qed.

Lemma includes_without l v x :
  includes (without l v) x = includes l x && negb (String.eqb x v).
Proof.
  induction l as [|y ys IH]; simpl; [done|].
  unfold includes in *. simpl.
  destruct (String.eqb_spec y v) as [->|Hyv]; simpl.
  - rewrite IH. destruct (String.eqb_spec x v); simpl; [by rewrite andb_false_r|].
    done.
  - simpl. rewrite IH. destruct (String.eqb_spec x y) as [->|]; simpl.
    + apply String.eqb_neq in Hyv. by rewrite Hyv.
    + done.
Qed.

Lemma includes_app l x y : includes (l ++ [y])%list x = includes l x || String.eqb x y.
Proof.
  unfold includes. rewrite existsb_app. simpl. by rewrite orb_false_r.
Qed.

Lemma includes_In l x : includes l x = true <-> In x l.
Proof.
  unfold includes. rewrite existsb_exists. split.
  - intros [y [Hy E]]. apply String.eqb_eq in E. by subst.
  - intros H. exists x. split; [done|]. apply String.eqb_refl.
Qed.

Lemma includes_unpick st c sid r x :
  includes (picksOf (unpick st c sid) r) x =
  includes (picksOf st r) x && negb (String.eqb c r && String.eqb x sid).
Proof.
  rewrite picksOf_unpick. destruct (String.eqb_spec c r) as [->|]; simpl.
  - apply includes_without.
  - by rewrite andb_true_r.
Qed.

Lemma unpickAllBut_fields w sid cs st :
  residents (unpickAllBut w sid cs st) = residents st /\
  shifts (unpickAllBut w sid cs st) = shifts st /\
  slotsPerResident (unpickAllBut w sid cs st) = slotsPerResident st.
Proof.
  unfold unpickAllBut. revert st. induction cs as [|c cs IH]; intros st; simpl; [done|].
  destruct (String.eqb c w); [apply IH|].
  destruct (IH (unpick st c sid)) as (-> & -> & ->). done.
Qed.

Lemma unpickAllBut_includes w sid cs st r x :
  includes (picksOf (unpickAllBut w sid cs st) r) x =
  includes (picksOf st r) x
  && negb (existsb (fun c => negb (String.eqb c w) && String.eqb c r) cs && String.eqb x sid).
Proof.
  unfold unpickAllBut. revert st. induction cs as [|c cs IH]; intros st; simpl.
  - by rewrite andb_true_r.
  - rewrite IH. destruct (String.eqb c w) eqn:Ecw; simpl.
    + done.
    + rewrite includes_unpick.
      destruct (includes (picksOf st r) x), (String.eqb c r), (String.eqb x sid),
        (existsb (fun c0 => negb (String.eqb c0 w) && String.eqb c0 r) cs); done.
Qed.

Lemma unpickAllBut_keep w sid cs st r :
  (r = w \/ ~ In r cs) -> picksOf (unpickAllBut w sid cs st) r = picksOf st r.
Proof.
  unfold unpickAllBut. revert st. induction cs as [|c cs IH]; intros st Hr; simpl; [done|].
  rewrite IH; [|destruct Hr as [->|Hr]; [by left | right; intros H; apply Hr; by right]].
  destruct (String.eqb_spec c w) as [->|Hcw]; [done|].
  rewrite picksOf_unpick. destruct (String.eqb_spec c r) as [->|]; [|done].
  destruct Hr as [->|Hr]; [done|]. exfalso. apply Hr. by left.
Qed.

(** ** One step and the whole pass of [resolveConflictsFair] *)

Lemma resolveShift_fields rnd st0 st s :
  residents (resolveShift rnd st0 st s) = residents st /\
  shifts (resolveShift rnd st0 st s) = shifts st /\
  slotsPerResident (resolveShift rnd st0 st s) = slotsPerResident st.
Proof.
  unfold resolveShift. destruct (Nat.leb _ 1); [done|]. apply unpickAllBut_fields.
Qed.

Lemma resolveShift_mono rnd st0 st s r x :
  includes (picksOf (resolveShift rnd st0 st s) r) x = true -> includes (picksOf st r) x = true.
Proof.
  unfold resolveShift. destruct (Nat.leb _ 1); [done|].
  rewrite unpickAllBut_includes. intros H. apply andb_prop in H. tauto.
Qed.

(** After its step, a contested shift is held by no contender but the winner. *)
Lemma resolveShift_clears rnd st0 st s r :
  (1 < length (whoIsAssigned st0 (id s)))%nat ->
  In r (whoIsAssigned st0 (id s)) -> r <> winner rnd st (whoIsAssigned st0 (id s)) ->
  includes (picksOf (resolveShift rnd st0 st s) r) (id s) = false.
Proof.
  intros Hlen Hin Hne. unfold resolveShift.
  destruct (Nat.leb_spec (length (whoIsAssigned st0 (id s))) 1); [lia|].
  rewrite unpickAllBut_includes, String.eqb_refl.
  replace (existsb _ _) with true; [by rewrite andb_false_r|].
  symmetry. apply existsb_exists. exists r. split; [done|].
  apply String.eqb_neq in Hne. by rewrite Hne, String.eqb_refl.
Qed.

Lemma resolveShift_winner_keeps rnd st0 st s :
  picksOf (resolveShift rnd st0 st s) (winner rnd st (whoIsAssigned st0 (id s))) =
  picksOf st (winner rnd st (whoIsAssigned st0 (id s))).
Proof.
  unfold resolveShift. destruct (Nat.leb _ 1); [done|].
  apply unpickAllBut_keep. by left.
Qed.

Lemma resolve_fold_fields rnd st0 shs st :
  residents (fold_left (resolveShift rnd st0) shs st) = residents st /\
  shifts (fold_left (resolveShift rnd st0) shs st) = shifts st.
Proof.
  revert st. induction shs as [|s shs IH]; intros st; simpl; [done|].
  destruct (IH (resolveShift rnd st0 st s)) as [-> ->].
  by destruct (resolveShift_fields rnd st0 st s) as [-> [-> _]].
Qed.

Lemma resolve_fold_mono rnd st0 shs st r x :
  includes (picksOf (fold_left (resolveShift rnd st0) shs st) r) x = true ->
  includes (picksOf st r) x = true.
Proof.
  revert st. induction shs as [|s shs IH]; intros st H; simpl in *; [done|].
  apply IH in H. by eapply resolveShift_mono.
Qed.

Lemma filter_length_mono (f g : string -> bool) l :
  (forall r, In r l -> f r = true -> g r = true) ->
  (length (List.filter f l) <= length (List.filter g l))%nat.
Proof.
  induction l as [|y ys IH]; intros H; simpl; [lia|].
  assert (IH' : (length (List.filter f ys) <= length (List.filter g ys))%nat).
  { apply IH. intros r Hr. apply H. by right. }
  destruct (f y) eqn:Ef.
  - rewrite (H y (or_introl eq_refl) Ef). simpl. lia.
  - destruct (g y); simpl; lia.
Qed.

Lemma filter_single (f : string -> bool) l w :
  List.NoDup l -> (forall r, In r l -> f r = true -> r = w) ->
  (length (List.filter f l) <= 1)%nat.
Proof.
  intros Hnd H.
  assert (Hnd' : List.NoDup (List.filter f l)) by (apply List.NoDup_filter; done).
  destruct (List.filter f l) as [|a [|b m]] eqn:E; simpl; [lia|lia|].
  assert (Ha : In a (List.filter f l)) by (rewrite E; left; done).
  assert (Hb : In b (List.filter f l)) by (rewrite E; right; left; done).
  apply filter_In in Ha as [Ha Fa]. apply filter_In in Hb as [Hb Fb].
  pose proof (H a Ha Fa). pose proof (H b Hb Fb). subst.
  inversion Hnd'; subst. exfalso. match goal with Hn : ~ In _ _ |- _ => apply Hn end. by left.
Qed.

Lemma resolve_at_most_one rnd st s :
  List.NoDup (residents st) -> In s (shifts st) ->
  (length (whoIsAssigned (resolveConflictsFair rnd st) (id s)) <= 1)%nat.
Proof.
  intros Hnd Hs. unfold resolveConflictsFair.
  apply in_split in Hs as (pre & post & Hsh).
  rewrite Hsh, fold_left_app. simpl.
  set (st1 := fold_left (resolveShift rnd st) pre st).
  set (st2 := resolveShift rnd st st1 s).
  set (fin := fold_left (resolveShift rnd st) post st2).
  assert (Hres : residents fin = residents st).
  { unfold fin, st2, st1.
    rewrite (proj1 (resolve_fold_fields rnd st post _)).
    rewrite (proj1 (resolveShift_fields rnd st _ s)).
    apply (proj1 (resolve_fold_fields rnd st pre st)). }
  assert (Hmono : forall r, includes (picksOf fin r) (id s) = true ->
                  includes (picksOf st2 r) (id s) = true /\ includes (picksOf st r) (id s) = true).
  { intros r H. apply resolve_fold_mono in H. split; [done|].
    apply resolveShift_mono in H. by apply resolve_fold_mono in H. }
  unfold whoIsAssigned at 1. rewrite Hres.
  destruct (Nat.leb_spec (length (whoIsAssigned st (id s))) 1) as [Hle|Hgt].
  - etransitivity; [|exact Hle]. apply filter_length_mono.
    intros r _ H. by apply Hmono in H as [_ H].
  - apply (filter_single _ _ (winner rnd st1 (whoIsAssigned st (id s)))); [done|].
    intros r Hr H. apply Hmono in H as [H2 H0].
    destruct (String.eqb_spec r (winner rnd st1 (whoIsAssigned st (id s)))) as [|Hne]; [done|].
    exfalso.
    assert (Hin : In r (whoIsAssigned st (id s))) by (apply filter_In; done).
    pose proof (resolveShift_clears rnd st st1 s r Hgt Hin Hne) as Hc.
    fold st2 in Hc. congruence.
Qed.

Lemma winner_unique rnd1 rnd2 st cs :
  cs <> [] -> uniqueMin st cs = true -> winner rnd1 st cs = winner rnd2 st cs.
Proof.
  intros Hne Hu. unfold uniqueMin in Hu. apply existsb_exists in Hu as [w [Hw Hall]].
  rewrite forallb_forall in Hall.
  assert (Hw_is : forall rnd, winner rnd st cs = w).
  { intros rnd. destruct (winner_spec rnd st cs Hne) as [Hin Hmin].
    specialize (Hall _ Hin). apply orb_true_iff in Hall as [E|E].
    - by apply String.eqb_eq in E.
    - exfalso. specialize (Hmin w Hw).
      unfold key_ltb in E. unfold key_leb in Hmin.
      rewrite orb_true_iff, andb_true_iff, Nat.ltb_lt, Nat.eqb_eq, Nat.ltb_lt in E.
      rewrite orb_true_iff, andb_true_iff, Nat.ltb_lt, Nat.eqb_eq, Nat.leb_le in Hmin.
      lia. }
  by rewrite !Hw_is.
Qed.

Lemma resolveShift_no_tie rnd1 rnd2 st0 st s :
  Nat.leb (length (whoIsAssigned st0 (id s))) 1 || uniqueMin st (whoIsAssigned st0 (id s)) = true ->
  resolveShift rnd1 st0 st s = resolveShift rnd2 st0 st s.
Proof.
  unfold resolveShift. intros H.
  destruct (Nat.leb (length (whoIsAssigned st0 (id s))) 1) eqn:E; [done|].
  simpl in H. rewrite (winner_unique rnd1 rnd2); [done| |done].
  intros Hnil. rewrite Hnil in E. done.
Qed.

Lemma resolve_fold_no_ties rnd1 rnd2 st0 shs st :
  noTies rnd1 st0 shs st = true ->
  fold_left (resolveShift rnd1 st0) shs st = fold_left (resolveShift rnd2 st0) shs st.
Proof.
  revert st. induction shs as [|s shs IH]; intros st H; simpl in *; [done|].
  apply andb_prop in H as [H1 H2].
  rewrite <- (resolveShift_no_tie rnd1 rnd2 st0 st s H1). by apply IH.
Qed.

Lemma resolve_fold_noop rnd st0 shs st :
  (forall s, In s shs -> (length (whoIsAssigned st0 (id s)) <= 1)%nat) ->
  fold_left (resolveShift rnd st0) shs st = st.
Proof.
  revert st. induction shs as [|s shs IH]; intros st H; simpl; [done|].
  unfold resolveShift at 2.
  destruct (Nat.leb_spec (length (whoIsAssigned st0 (id s))) 1) as [_|Hgt].
  - apply IH. intros s' Hs'. apply H. by right.
  - exfalso. specialize (H s (or_introl eq_refl)). lia.
Qed.

Lemma resolve_noop_when_resolved rnd st :
  (forall s, In s (shifts st) -> (length (whoIsAssigned st (id s)) <= 1)%nat) ->
  resolveConflictsFair rnd st = st.
Proof. intros H. unfold resolveConflictsFair. by apply resolve_fold_noop. Qed.

(* ================================================================== *)
(** * Claims *)

(** C1: for a shift with more than one claimant (the contenders found at
    the start of the pass), the step of [resolveConflictsFair] picks as
    winner a contender whose key [(total, monfri)] (total claims, then
    Monday/Friday claims), computed on the current ledger, is
    lexicographically smallest; every other contender loses the shift and
    the winner keeps its claim list. On the spec's scenario A, with key
    (1, 1), beats B, with key (3, 1) (B's key cannot be (3, 0), since the
    contested shift 2025-09-01 is itself a Monday), whatever the random
    tie values. *)
Theorem resolveConflictsFair_winner_smallest_key :
  (forall rnd st0 st s,
     (1 < length (whoIsAssigned st0 (id s)))%nat ->
     let cs := whoIsAssigned st0 (id s) in
     In (winner rnd st cs) cs /\
     (forall c, In c cs -> key_leb (statsFor st (winner rnd st cs)) (statsFor st c) = true) /\
     (forall c, In c cs -> c <> winner rnd st cs ->
        includes (picksOf (resolveShift rnd st0 st s) c) (id s) = false) /\
     picksOf (resolveShift rnd st0 st s) (winner rnd st cs) = picksOf st (winner rnd st cs)) /\
  (forall rnd,
     statsFor scenario "A" = mkStats 1 1 /\ statsFor scenario "B" = mkStats 3 1 /\
     whoIsAssigned scenario (id S1) = ["A"; "B"] /\
     whoIsAssigned (resolveConflictsFair rnd scenario) (id S1) = ["A"]).
Proof.
  split.
  - intros rnd st0 st s Hlen cs.
    assert (Hne : cs <> []) by (intros E; unfold cs in E; rewrite E in Hlen; simpl in Hlen; lia).
    destruct (winner_spec rnd st cs Hne) as [Hin Hmin].
    split; [done|]. split; [done|]. split.
    + intros c Hc Hcw. by apply resolveShift_clears.
    + apply resolveShift_winner_keeps.
  - intros rnd. vm_compute. repeat split.
Qed.

Lemma resolveConflictsFair_winner_smallest_key_witness :
  (1 < length (whoIsAssigned scenario (id S1)))%nat /\
  In (winner (fun _ _ => 0%Z) scenario (whoIsAssigned scenario (id S1)))
     (whoIsAssigned scenario (id S1)).
Proof.
  assert (H : (1 < length (whoIsAssigned scenario (id S1)))%nat) by (vm_compute; lia).
  split; [exact H|].
  exact (proj1 (proj1 resolveConflictsFair_winner_smallest_key
                  (fun _ _ => 0%Z) scenario scenario S1 H)).
Defined.

(** C2: after [resolveConflictsFair], every shift of the registry has at
    most one claimant, as long as the resident list has no duplicates
    (the defaults never do, and no command adds residents). *)
Theorem resolveConflictsFair_at_most_one :
  forall rnd st s,
    List.NoDup (residents st) -> In s (shifts st) ->
    (length (whoIsAssigned (resolveConflictsFair rnd st) (id s)) <= 1)%nat.
Proof. intros rnd st s Hnd Hs. by apply resolve_at_most_one. Qed.

Lemma resolveConflictsFair_at_most_one_witness :
  List.NoDup (residents scenario) /\ In S1 (shifts scenario) /\
  (length (whoIsAssigned (resolveConflictsFair (fun _ _ => 0%Z) scenario) (id S1)) <= 1)%nat.
Proof.
  assert (Hnd : List.NoDup (residents scenario)).
  { simpl. constructor; [intros [H|[]]; discriminate|].
    constructor; [intros []|constructor]. }
  assert (Hs : In S1 (shifts scenario)) by (simpl; left; reflexivity).
  split; [exact Hnd|]. split; [exact Hs|].
  exact (resolveConflictsFair_at_most_one (fun _ _ => 0%Z) scenario S1 Hnd Hs).
Defined.

(** C3: the shifts are resolved one after the other in the order of
    [state.shifts], each step ranking its contenders on the ledger left by
    the earlier steps. Two runs from the same ledger give the same result
    whatever the random values, as long as no step meets a tie on the
    smallest key. On [freshness], B's initial key (2, 0) is below A's
    (2, 1), yet A wins S2: A lost the Monday S1 to C in the earlier step,
    which brought A's key down to (1, 0). *)
Theorem resolveConflictsFair_fresh_keys_deterministic :
  (forall rnd1 rnd2 st,
     noTies rnd1 st (shifts st) st = true ->
     resolveConflictsFair rnd1 st = resolveConflictsFair rnd2 st) /\
  (forall rnd,
     key_lt (statsFor freshness "B") (statsFor freshness "A") /\
     whoIsAssigned (resolveConflictsFair rnd freshness) (id S1) = ["C"] /\
     whoIsAssigned (resolveConflictsFair rnd freshness) (id S2) = ["A"]).
Proof.
  split.
  - intros rnd1 rnd2 st H. unfold resolveConflictsFair. by apply resolve_fold_no_ties.
  - intros rnd. split; [vm_compute; right; split; [reflexivity|lia]|].
    vm_compute. split; reflexivity.
Qed.

Lemma resolveConflictsFair_fresh_keys_deterministic_witness :
  noTies (fun _ _ => 0%Z) freshness (shifts freshness) freshness = true /\
  resolveConflictsFair (fun _ _ => 0%Z) freshness = resolveConflictsFair (fun _ _ => 1%Z) freshness.
Proof.
  assert (H : noTies (fun _ _ => 0%Z) freshness (shifts freshness) freshness = true)
    by (vm_compute; reflexivity).
  split; [exact H|].
  exact (proj1 resolveConflictsFair_fresh_keys_deterministic _ _ freshness H).
Defined.

(** C4: on a ledger where no shift has more than one claimant,
    [resolveConflictsFair] changes nothing (claim lists included); hence a
    second call after a first one changes nothing either. *)
Theorem resolveConflictsFair_idempotent :
  (forall rnd st,
     (forall s, In s (shifts st) -> (length (whoIsAssigned st (id s)) <= 1)%nat) ->
     resolveConflictsFair rnd st = st) /\
  (forall rnd rnd' st,
     List.NoDup (residents st) ->
     resolveConflictsFair rnd' (resolveConflictsFair rnd st) = resolveConflictsFair rnd st).
Proof.
  split.
  - apply resolve_noop_when_resolved.
  - intros rnd rnd' st Hnd. apply resolve_noop_when_resolved.
    intros s Hs. unfold resolveConflictsFair in Hs.
    rewrite (proj2 (resolve_fold_fields rnd st (shifts st) st)) in Hs.
    by apply resolve_at_most_one.
Qed.

Lemma resolveConflictsFair_idempotent_witness :
  let st := resolveConflictsFair (fun _ _ => 0%Z) scenario in
  (forall s, In s (shifts st) -> (length (whoIsAssigned st (id s)) <= 1)%nat) /\
  resolveConflictsFair (fun _ _ => 1%Z) st = st.
Proof.
  intros st.
  assert (H : forall s, In s (shifts st) -> (length (whoIsAssigned st (id s)) <= 1)%nat).
  { intros s Hs. vm_compute in Hs.
    repeat (destruct Hs as [<-|Hs]; [vm_compute; lia|]). done. }
  split; [exact H|].
  exact (proj1 resolveConflictsFair_idempotent (fun _ _ => 1%Z) st H).
Defined.

(** ** Claims, unclaims, registry commands *)

Lemma without_length l v : (length (without l v) <= length l)%nat.
Proof.
  induction l as [|y ys IH]; simpl; [lia|]. destruct (negb _); simpl; lia.
Qed.

Lemma claim_within_quota st n sid :
  (forall r, (length (picksOf st r) <= slotsPerResident st)%nat) ->
  slotsPerResident (fst (claim st n sid)) = slotsPerResident st /\
  forall r, (length (picksOf (fst (claim st n sid)) r) <= slotsPerResident st)%nat.
Proof.
  intros H. unfold claim.
  destruct (Nat.leb_spec (slotsPerResident st) (length (picksOf st n))); [done|].
  destruct (includes (picksOf st n) sid); [done|].
  split; [done|]. intros r. simpl. rewrite picksOf_push.
  destruct (String.eqb_spec n r) as [->|]; [|apply H].
  rewrite length_app. simpl. lia.
Qed.

Lemma runOps_within_quota st ops :
  (forall r, (length (picksOf st r) <= slotsPerResident st)%nat) ->
  slotsPerResident (runOps st ops) = slotsPerResident st /\
  forall r, (length (picksOf (runOps st ops) r) <= slotsPerResident st)%nat.
Proof.
  unfold runOps. revert st. induction ops as [|op ops IH]; intros st H; simpl; [done|].
  assert (Hop : slotsPerResident (runOp st op) = slotsPerResident st /\
                forall r, (length (picksOf (runOp st op) r) <= slotsPerResident st)%nat).
  { destruct op as [n s | n s]; simpl.
    - by apply claim_within_quota.
    - split; [done|]. intros r. unfold unclaim. rewrite picksOf_unpick.
      destruct (String.eqb_spec n r) as [->|]; [|apply H].
      etransitivity; [apply without_length|apply H]. }
  destruct Hop as [Hs Hb]. rewrite <- Hs in Hb.
  destruct (IH (runOp st op) Hb) as [Hs' Hb'].
  rewrite Hs', Hs in *. split; [done|]. intros r. specialize (Hb' r). lia.
Qed.

Lemma set_picks_id st : set_picks st (picks st) = st.
Proof. by destruct st. Qed.

Lemma set_shifts_id st : set_shifts st (shifts st) = st.
Proof. by destruct st. Qed.

Lemma without_absent l v : ~ In v l -> without l v = l.
Proof.
  induction l as [|y ys IH]; intros H; simpl; [done|].
  destruct (String.eqb_spec y v) as [->|]; [exfalso; apply H; by left|].
  simpl. rewrite IH; [done|]. intros Hin. apply H. by right.
Qed.

Lemma filter_all_true {A} (f : A -> bool) l : (forall x, In x l -> f x = true) -> List.filter f l = l.
Proof.
  induction l as [|y ys IH]; intros H; simpl; [done|].
  rewrite (H y (or_introl eq_refl)), IH; [done|]. intros x Hx. apply H. by right.
Qed.

Lemma unpick_absent st r sid :
  ~ In sid (picksOf st r) -> is_Some (picks st !! r) -> unpick st r sid = st.
Proof.
  intros Hn [l Hl]. unfold unpick. rewrite without_absent; [|done].
  unfold picksOf. rewrite Hl. simpl. rewrite insert_id; [apply set_picks_id|done].
Qed.

Lemma removeShift_fold_fields sid rs st :
  residents (fold_left (fun acc r => unpick acc r sid) rs st) = residents st /\
  shifts (fold_left (fun acc r => unpick acc r sid) rs st) = shifts st.
Proof. revert st. induction rs as [|r rs IH]; intros st; simpl; [done|]. by rewrite (proj1 (IH _)), (proj2 (IH _)). Qed.

Lemma removeShift_fold_includes sid rs st r x :
  includes (picksOf (fold_left (fun acc r => unpick acc r sid) rs st) r) x =
  includes (picksOf st r) x && negb (existsb (String.eqb r) rs && String.eqb x sid).
Proof.
  revert st. induction rs as [|c rs IH]; intros st; simpl; [by rewrite andb_true_r|].
  rewrite IH, includes_unpick. rewrite (String.eqb_sym r c).
  destruct (includes (picksOf st r) x), (String.eqb c r), (String.eqb x sid),
    (existsb (String.eqb r) rs); done.
Qed.

Lemma sort_by_perm {A} (cmp : A -> A -> Z) l : Permutation l (sort_by cmp l).
Proof.
  unfold sort_by.
  assert (Hgen : forall acc,
    Permutation (acc ++ l) (fold_left (fun acc x => insert_by cmp x acc) l acc)).
  { induction l as [|x xs IH]; intros acc; simpl; [by rewrite app_nil_r|].
    rewrite <- IH, <- (insert_by_perm cmp x acc).
    apply Permutation_sym, Permutation_middle. }
  apply (Hgen []).
Qed.

Lemma removeShift_absent st sid :
  (forall s, In s (shifts st) -> id s <> sid) ->
  (forall r, In r (residents st) -> is_Some (picks st !! r) /\ ~ In sid (picksOf st r)) ->
  removeShift st sid = st.
Proof.
  intros Hs Hr. unfold removeShift.
  rewrite filter_all_true, set_shifts_id.
  2:{ intros x Hx. apply negb_true_iff, String.eqb_neq. by apply Hs. }
  assert (Hgen : forall rs, (forall r, In r rs -> In r (residents st)) ->
            fold_left (fun acc r => unpick acc r sid) rs st = st).
  { induction rs as [|r rs IH]; intros Hin; simpl; [done|].
    destruct (Hr r (Hin r (or_introl eq_refl))) as [Hsome Hn].
    rewrite unpick_absent; [|done|done]. apply IH. intros x Hx. apply Hin. by right. }
  by apply Hgen.
Qed.

(** C5: over any sequence of claims and unclaims, starting from a ledger
    within quota (the initial one has empty lists), no resident's claim
    list grows beyond [slotsPerResident]; a claim by a resident already
    at quota reports [QuotaExceeded] and leaves the state unchanged. *)
Theorem claims_never_exceed_quota :
  (forall st ops,
     (forall r, (length (picksOf st r) <= slotsPerResident st)%nat) ->
     slotsPerResident (runOps st ops) = slotsPerResident st /\
     forall r, (length (picksOf (runOps st ops) r) <= slotsPerResident (runOps st ops))%nat) /\
  (forall st name sid,
     length (picksOf st name) = slotsPerResident st ->
     claim st name sid = (st, Some QuotaExceeded)).
Proof.
  split.
  - intros st ops H. destruct (runOps_within_quota st ops H) as [Hs Hb].
    rewrite Hs. by split.
  - intros st name sid H. unfold claim. rewrite H, Nat.leb_refl. done.
Qed.

Lemma claims_never_exceed_quota_witness :
  length (picksOf atQuota "A") = slotsPerResident atQuota /\
  claim atQuota "A" "2025-09-15__PUERTA" = (atQuota, Some QuotaExceeded) /\
  (length (picksOf (runOps (mkState 4 ["A"; "B"] [S1; S2; S3; S4] ∅) quotaOps) "A") <= 4)%nat.
Proof.
  assert (H : length (picksOf atQuota "A") = slotsPerResident atQuota) by (vm_compute; reflexivity).
  split; [exact H|]. split; [exact (proj2 claims_never_exceed_quota atQuota "A" _ H)|].
  assert (H0 : forall r, (length (picksOf (mkState 4 ["A"; "B"] [S1; S2; S3; S4] ∅) r)
                          <= slotsPerResident (mkState 4 ["A"; "B"] [S1; S2; S3; S4] ∅))%nat).
  { intros r. unfold picksOf. simpl. rewrite lookup_empty. simpl. lia. }
  destruct (proj1 claims_never_exceed_quota _ quotaOps H0) as [Hs Hb].
  rewrite Hs in Hb. exact (Hb "A").
Defined.

(** C7 (as stated, refuted): re-claiming a shift already held by a
    resident at quota is reported as [QuotaExceeded]: the quota test
    comes before the "already picked" test. *)
Lemma reclaim_at_quota_reports_error :
  includes (picksOf atQuota "A") (id S1) = true /\
  claim atQuota "A" (id S1) = (atQuota, Some QuotaExceeded).
Proof. vm_compute. split; reflexivity. Qed.

(** C7 (amended): re-claiming an already-held shift never changes the
    state (claim lists, hence assignments); it reports no error while the
    resident is below quota and [QuotaExceeded] once at quota. *)
Theorem reclaim_is_noop :
  forall st name sid,
    includes (picksOf st name) sid = true ->
    fst (claim st name sid) = st /\
    snd (claim st name sid) =
      (if Nat.leb (slotsPerResident st) (length (picksOf st name)) then Some QuotaExceeded else None).
Proof.
  intros st name sid H. unfold claim.
  destruct (Nat.leb (slotsPerResident st) (length (picksOf st name))); [done|].
  by rewrite H.
Qed.

Lemma reclaim_is_noop_witness :
  includes (picksOf scenario "B") (id S2) = true /\
  fst (claim scenario "B" (id S2)) = scenario.
Proof.
  assert (H : includes (picksOf scenario "B") (id S2) = true) by (vm_compute; reflexivity).
  split; [exact H|]. exact (proj1 (reclaim_is_noop scenario "B" (id S2) H)).
Defined.

(** C8: in a registry built by [addShift] (every id is [idFor date type],
    dates and types non-empty), adding a (date, type) pair already present
    reports [DuplicateShift] and leaves the state unchanged. Adding
    ("2025-09-01", "Puerta") twice to the initial state leaves one shift. *)
Theorem addShift_duplicate_rejected :
  (forall st d t,
     (forall s, In s (shifts st) -> id s = idFor (date s) (type s) /\ date s <> "" /\ type s <> "") ->
     (exists s, In s (shifts st) /\ date s = d /\ type s = t) ->
     addShift st d t = (st, Some DuplicateShift)) /\
  (let st1 := fst (addShift initialState "2025-09-01" "Puerta") in
   snd (addShift initialState "2025-09-01" "Puerta") = None /\
   addShift st1 "2025-09-01" "Puerta" = (st1, Some DuplicateShift) /\
   length (shifts st1) = 1%nat).
Proof.
  split.
  - intros st d t Hv (s & Hs & <- & <-).
    destruct (Hv s Hs) as (Hid & Hd & Ht). unfold addShift.
    apply String.eqb_neq in Hd, Ht. rewrite Hd, Ht. simpl.
    replace (existsb _ _) with true; [done|]. symmetry.
    apply existsb_exists. exists s. split; [done|]. by apply String.eqb_eq.
  - vm_compute. repeat split.
Qed.

Lemma addShift_duplicate_rejected_witness :
  let st1 := fst (addShift initialState "2025-09-01" "Puerta") in
  addShift st1 "2025-09-01" "Puerta" = (st1, Some DuplicateShift).
Proof.
  intros st1.
  assert (Hv : forall s, In s (shifts st1) ->
                 id s = idFor (date s) (type s) /\ date s <> "" /\ type s <> "").
  { intros s Hs. vm_compute in Hs. destruct Hs as [<- | []].
    split; [reflexivity|]. split; discriminate. }
  assert (He : exists s, In s (shifts st1) /\ date s = "2025-09-01" /\ type s = "Puerta").
  { exists (mkShift (idFor "2025-09-01" "Puerta") "2025-09-01" "Puerta").
    split; [vm_compute; left; reflexivity|]. split; reflexivity. }
  exact (proj1 addShift_duplicate_rejected st1 _ _ Hv He).
Defined.

(** C9: [removeShift] drops the shift from the registry (so from every
    listing sorted from it) and the id from the claim list of every
    resident, keeps all other shifts and all other claims; on an absent id
    it is a no-op for a ledger whose claim lists exist for every resident
    and hold only registry ids. *)
Theorem removeShift_cascades :
  (forall st sid,
     (forall s, In s (shifts (removeShift st sid)) -> id s <> sid) /\
     (forall s, In s (shifts st) -> id s <> sid -> In s (shifts (removeShift st sid))) /\
     (forall r, In r (residents st) -> ~ In sid (picksOf (removeShift st sid) r)) /\
     (forall r x, x <> sid -> (In x (picksOf (removeShift st sid) r) <-> In x (picksOf st r))) /\
     (forall localeCompare s, In s (listShifts localeCompare (removeShift st sid)) -> id s <> sid)) /\
  (forall st sid,
     (forall s, In s (shifts st) -> id s <> sid) ->
     (forall r, In r (residents st) -> is_Some (picks st !! r) /\ ~ In sid (picksOf st r)) ->
     removeShift st sid = st).
Proof.
  split; [|apply removeShift_absent].
  intros st sid.
  assert (Hsh : shifts (removeShift st sid) =
                List.filter (fun x => negb (String.eqb (id x) sid)) (shifts st)).
  { unfold removeShift. by rewrite (proj2 (removeShift_fold_fields _ _ _)). }
  assert (Hinc : forall r x, includes (picksOf (removeShift st sid) r) x =
            includes (picksOf st r) x && negb (existsb (String.eqb r) (residents st) && String.eqb x sid)).
  { intros r x. unfold removeShift. rewrite removeShift_fold_includes. done. }
  assert (Hgone : forall s, In s (shifts (removeShift st sid)) -> id s <> sid).
  { intros s Hs. rewrite Hsh in Hs. apply filter_In in Hs as [_ Hs].
    apply negb_true_iff, String.eqb_neq in Hs. done. }
  split; [done|]. split.
  { intros s Hs Hne. rewrite Hsh. apply filter_In. split; [done|].
    apply negb_true_iff, String.eqb_neq. done. }
  split.
  { intros r Hr Hin. apply includes_In in Hin. rewrite Hinc in Hin.
    replace (existsb (String.eqb r) (residents st)) with true in Hin.
    - rewrite String.eqb_refl, andb_false_r in Hin. done.
    - symmetry. apply existsb_exists. exists r. split; [done|]. apply String.eqb_refl. }
  split.
  { intros r x Hne. rewrite <- !includes_In, Hinc.
    apply String.eqb_neq in Hne. rewrite Hne, andb_false_r. simpl. by rewrite andb_true_r. }
  intros lc s Hs. apply Hgone. unfold listShifts in Hs.
  eapply Permutation_in; [apply Permutation_sym, sort_by_perm|exact Hs].
Qed.

Lemma removeShift_cascades_witness :
  removeShift scenario "2025-12-25__PUERTA" = scenario.
Proof.
  apply (proj2 removeShift_cascades).
  - intros s Hs. vm_compute in Hs.
    repeat (destruct Hs as [<-|Hs]; [vm_compute; discriminate|]). done.
  - intros r Hr. vm_compute in Hr.
    destruct Hr as [<-|[<- | []]]; (split; [vm_compute; eexists; reflexivity|]);
      vm_compute; intros H; repeat (destruct H as [H|H]; [discriminate|]); done.
Defined.

(** ** The random fill *)

Lemma assignShift_find rnd st s :
  residents st <> [] ->
  assignShift rnd st s =
  Some (match List.find (eligible st (id s)) (sort_by (assignCmp rnd st) (residents st)) with
        | Some c => push_pick st c (id s)
        | None => st
        end).
Proof.
  intros Hne. unfold assignShift.
  destruct (sort_by (assignCmp rnd st) (residents st)) as [|chosen rest] eqn:E.
  - exfalso. pose proof (sort_by_perm (assignCmp rnd st) (residents st)) as Hp.
    rewrite E in Hp. apply Permutation_sym, Permutation_nil in Hp. done.
  - simpl. destruct (eligible st (id s) chosen); [done|].
    by destruct (List.find (eligible st (id s)) rest).
Qed.

Lemma assignShift_step rnd st s :
  residents st <> [] ->
  exists st', assignShift rnd st s = Some st' /\
  ((exists c, In c (residents st) /\ eligible st (id s) c = true /\
      (forall r, In r (residents st) -> eligible st (id s) r = true ->
         key_leb (statsFor st c) (statsFor st r) = true) /\
      st' = push_pick st c (id s)) \/
   ((forall r, In r (residents st) -> eligible st (id s) r = false) /\ st' = st)).
Proof.
  intros Hne. rewrite (assignShift_find rnd st s Hne). eexists. split; [reflexivity|].
  destruct (sort_by_spec (assignCmp rnd st) (statsFor st)
              (assignCmp_lt rnd st) (assignCmp_gt rnd st) (residents st)) as [Hp Hs].
  destruct (List.find (eligible st (id s)) (sort_by (assignCmp rnd st) (residents st)))
    as [c|] eqn:Ef.
  - left. exists c. apply find_some in Ef as Hc. destruct Hc as [Hin Hel].
    split; [by apply (Permutation_in c (Permutation_sym Hp))|]. split; [done|].
    split; [|done]. intros r Hr Her.
    apply Sorted_StronglySorted in Hs; [|apply R_trans].
    exact (find_sorted_min (statsFor st) _ _ c Hs Ef r (Permutation_in r Hp Hr) Her).
  - right. split; [|done]. intros r Hr.
    exact (find_none _ _ Ef r (Permutation_in r Hp Hr)).
Qed.

Lemma push_pick_within_quota st c sid :
  eligible st sid c = true ->
  (forall r, (length (picksOf st r) <= slotsPerResident st)%nat) ->
  forall r, (length (picksOf (push_pick st c sid) r) <= slotsPerResident st)%nat.
Proof.
  intros He H r. rewrite picksOf_push.
  destruct (String.eqb_spec c r) as [->|]; [|apply H].
  unfold eligible in He. apply andb_prop in He as [_ He]. apply Nat.ltb_lt in He.
  rewrite length_app. simpl. lia.
Qed.

Lemma assign_fold_within_quota rnd shs st :
  residents st <> [] ->
  (forall r, (length (picksOf st r) <= slotsPerResident st)%nat) ->
  exists st', fold_left (fun o s => match o with Some st' => assignShift rnd st' s | None => None end)
                shs (Some st) = Some st' /\
    residents st' = residents st /\ slotsPerResident st' = slotsPerResident st /\
    forall r, (length (picksOf st' r) <= slotsPerResident st')%nat.
Proof.
  revert st. induction shs as [|s shs IH]; intros st Hne H; simpl.
  - by exists st.
  - destruct (assignShift_step rnd st s Hne) as (st1 & -> & Hcase).
    assert (Hf : residents st1 = residents st /\ slotsPerResident st1 = slotsPerResident st /\
                 forall r, (length (picksOf st1 r) <= slotsPerResident st1)%nat).
    { destruct Hcase as [(c & _ & Hel & _ & ->) | (_ & ->)]; [|done].
      split; [done|]. split; [done|]. exact (push_pick_within_quota st c (id s) Hel H). }
    destruct Hf as (Hr & Hsl & Hb).
    destruct (IH st1) as (st2 & E & Hr2 & Hsl2 & Hb2); [by rewrite Hr|done|].
    exists st2. split; [done|]. split; [congruence|]. split; [congruence|]. done.
Qed.

(** C10 (as stated, refuted): when every resident is at quota an empty
    shift stays unassigned, but nothing reports it: the click handler
    shows the same "Random assignment complete." toast as on a ledger
    where the empty shift does get a resident. *)
Lemma random_fill_reports_nothing :
  randomAssignRemaining (fun _ _ => 0%Z) allFull = Some allFull /\
  In S4 (shifts allFull) /\ whoIsAssigned allFull (id S4) = [] /\
  (forall r, In r (residents allFull) -> length (picksOf allFull r) = slotsPerResident allFull) /\
  snd (randomClick (fun _ _ => 0%Z) allFull) = snd (randomClick (fun _ _ => 0%Z) roomLeft) /\
  option_map (fun st => whoIsAssigned st (id S4))
    (randomAssignRemaining (fun _ _ => 0%Z) roomLeft) = Some ["B"].
Proof.
  split; [vm_compute; reflexivity|]. split; [simpl; auto|].
  split; [vm_compute; reflexivity|]. split.
  - intros r Hr. simpl in Hr. destruct Hr as [<-|[<- | []]]; vm_compute; reflexivity.
  - split; vm_compute; reflexivity.
Qed.

(** C10 (amended): for each shift empty at the start, in registry order,
    the residents are ranked by [(total, monfri)] on the current ledger
    (ties random) and the shift goes to the first of them below
    [slotsPerResident] not already holding it, which has the smallest key
    among all such residents; when there is none the shift silently stays
    unassigned and the ledger is unchanged. With a non-empty resident list
    the pass never throws and never takes a resident over quota. *)
Theorem randomAssignRemaining_fills_within_quota :
  (forall rnd st s,
     residents st <> [] ->
     exists st', assignShift rnd st s = Some st' /\
     ((exists c, In c (residents st) /\ eligible st (id s) c = true /\
         (forall r, In r (residents st) -> eligible st (id s) r = true ->
            key_leb (statsFor st c) (statsFor st r) = true) /\
         st' = push_pick st c (id s)) \/
      ((forall r, In r (residents st) -> eligible st (id s) r = false) /\ st' = st))) /\
  (forall rnd st,
     residents st <> [] ->
     (forall r, (length (picksOf st r) <= slotsPerResident st)%nat) ->
     exists st', randomAssignRemaining rnd st = Some st' /\
       forall r, (length (picksOf st' r) <= slotsPerResident st')%nat).
Proof.
  split; [apply assignShift_step|].
  intros rnd st Hne H. unfold randomAssignRemaining.
  destruct (assign_fold_within_quota rnd (emptyShifts st) st Hne H) as (st' & E & _ & _ & Hb).
  exists st'. by split.
Qed.

Lemma randomAssignRemaining_fills_within_quota_witness :
  exists st', randomAssignRemaining (fun _ _ => 0%Z) roomLeft = Some st' /\
    forall r, (length (picksOf st' r) <= slotsPerResident st')%nat.
Proof.
  assert (Hne : residents roomLeft <> []) by discriminate.
  assert (H : forall r, (length (picksOf roomLeft r) <= slotsPerResident roomLeft)%nat).
  { intros r. unfold picksOf, roomLeft. simpl. rewrite !lookup_insert.
    repeat case_decide; simpl; try lia. rewrite lookup_empty. simpl. lia. }
  exact (proj2 randomAssignRemaining_fills_within_quota (fun _ _ => 0%Z) roomLeft Hne H).
Defined.

(** ** src/script.js: the two bookkeepings stay in step *)

Lemma legacy_nodup_map_inj {A B} (f : A -> B) l a b :
  List.NoDup (map f l) -> In a l -> In b l -> f a = f b -> a = b.
Proof.
  induction l as [|x xs IH]; simpl; intros Hnd Ha Hb E; [done|].
  apply List.NoDup_cons_iff in Hnd as [Hx Hnd].
  destruct Ha as [<-|Ha], Hb as [<-|Hb]; [done| | |by apply IH].
  - exfalso. apply Hx. rewrite E. by apply in_map.
  - exfalso. apply Hx. rewrite <- E. by apply in_map.
Qed.

Lemma legacy_replace_first_map i f l :
  List.NoDup (map Legacy.lid l) -> (forall x, Legacy.lid (f x) = Legacy.lid x) ->
  Legacy.replace_first (fun s => String.eqb (Legacy.lid s) i) f l =
  map (fun x => if String.eqb (Legacy.lid x) i then f x else x) l.
Proof.
  intros Hnd Hf. induction l as [|x xs IH]; simpl; [done|].
  simpl in Hnd. apply List.NoDup_cons_iff in Hnd as [Hx Hnd].
  destruct (String.eqb_spec (Legacy.lid x) i) as [Ei|]; [|by rewrite IH].
  f_equal. symmetry. rewrite <- (map_id xs) at 2. apply map_ext_in.
  intros y Hy. destruct (String.eqb_spec (Legacy.lid y) i); [|done].
  exfalso. apply Hx. rewrite Ei. rewrite <- e. by apply in_map.
Qed.

Lemma legacy_map_lid g l :
  (forall x, Legacy.lid (g x) = Legacy.lid x) -> map Legacy.lid (map g l) = map Legacy.lid l.
Proof. intros Hg. rewrite map_map. apply map_ext. done. Qed.

Lemma legacy_remove_first_in v l x : In x (Legacy.remove_first v l) -> In x l.
Proof.
  induction l as [|y ys IH]; simpl; [done|].
  destruct (String.eqb y v); [by right|]. intros [->|H]; [by left|right; by apply IH].
Qed.

Lemma legacy_remove_first_ne v l x : x <> v -> (In x (Legacy.remove_first v l) <-> In x l).
Proof.
  intros Hne. split; [apply legacy_remove_first_in|].
  induction l as [|y ys IH]; simpl; [done|].
  destruct (String.eqb_spec y v) as [->|]; intros [->|H]; try done.
  - by left.
  - right. by apply IH.
Qed.

Lemma legacy_remove_first_nodup v l :
  List.NoDup l -> List.NoDup (Legacy.remove_first v l) /\ ~ In v (Legacy.remove_first v l).
Proof.
  induction l as [|y ys IH]; simpl; intros Hnd; [split; [apply List.NoDup_nil|intros []]|].
  apply List.NoDup_cons_iff in Hnd as [Hy Hnd].
  destruct (String.eqb_spec y v) as [->|Hne]; [done|].
  destruct (IH Hnd) as [H1 H2]. split.
  - constructor; [|done]. intros H. by apply Hy, (legacy_remove_first_in v).
  - intros [E|H]; [done|done].
Qed.

Lemma legacy_upicks_insert st u l f m w :
  Legacy.upicks (Legacy.mkLState f (<[u := l]> (Legacy.userPicks st)) m) w =
  if String.eqb u w then l else Legacy.upicks st w.
Proof.
  unfold Legacy.upicks. simpl. rewrite lookup_insert.
  destruct (String.eqb_spec u w); case_decide; subst; done.
Qed.

Lemma legacy_reset_lookup us (m : gmap string (list string)) v :
  (fold_left (fun m u => <[u := []]> m) us m) !! v =
  if existsb (String.eqb v) us then Some [] else m !! v.
Proof.
  revert m. induction us as [|u us IH]; intros m; simpl; [done|].
  rewrite IH. destruct (existsb (String.eqb v) us); [by rewrite orb_true_r|].
  rewrite orb_false_r, lookup_insert, (String.eqb_sym v u).
  destruct (String.eqb_spec u v); case_decide; subst; done.
Qed.

Lemma legacy_push_lookup i names (m : gmap string (list string)) v :
  default [] (fold_left (Legacy.push_to i) names m !! v) =
  (default [] (m !! v) ++ map (fun _ => i) (List.filter (String.eqb v) names))%list.
Proof.
  revert m. induction names as [|a names IH]; intros m; simpl; [by rewrite app_nil_r|].
  rewrite IH. unfold Legacy.push_to. rewrite lookup_insert, (String.eqb_sym v a).
  destruct (String.eqb_spec a v); case_decide; subst; simpl; try done.
  by rewrite <- app_assoc.
Qed.

Lemma legacy_rebuild_fold_lookup shs (m : gmap string (list string)) v :
  default [] (fold_left (fun m sh => fold_left (Legacy.push_to (Legacy.lid sh)) (Legacy.assigned sh) m) shs m !! v) =
  (default [] (m !! v) ++
   flat_map (fun sh => map (fun _ => Legacy.lid sh) (List.filter (String.eqb v) (Legacy.assigned sh))) shs)%list.
Proof.
  revert m. induction shs as [|sh shs IH]; intros m; simpl; [by rewrite app_nil_r|].
  rewrite IH, legacy_push_lookup. by rewrite <- app_assoc.
Qed.

Lemma legacy_rebuild_user shs (m : gmap string (list string)) u :
  In u Legacy.users ->
  default [] (Legacy.rebuild shs m !! u) =
  flat_map (fun sh => map (fun _ => Legacy.lid sh) (List.filter (String.eqb u) (Legacy.assigned sh))) shs.
Proof.
  intros Hu. unfold Legacy.rebuild. rewrite legacy_rebuild_fold_lookup, legacy_reset_lookup.
  replace (existsb (String.eqb u) Legacy.users) with true; [done|].
  symmetry. apply existsb_exists. exists u. split; [done|]. apply String.eqb_refl.
Qed.


Lemma legacy_piece_in (y c w : string) (l : list string) :
  In y (map (fun _ => c) (List.filter (String.eqb w) l)) <-> y = c /\ In w l.
Proof.
  induction l as [|a l IH]; simpl; [tauto|].
  destruct (String.eqb_spec w a) as [<-|Hne]; simpl; rewrite IH; [|split].
  - split; [intros [<-|[? ?]]; auto|intros [-> _]; auto].
  - intros [? ?]; split; auto.
  - intros [? [->|?]]; [done|auto].
Qed.

Lemma legacy_nodup_short (l : list string) : length l <= 1 -> List.NoDup l.
Proof.
  destruct l as [|a [|b l]]; simpl; intros H; [apply List.NoDup_nil| |lia].
  constructor; [intros []|apply List.NoDup_nil].
Qed.

Lemma legacy_flat_nodup (shs : list Legacy.LShift) (P : Legacy.LShift -> list string) :
  List.NoDup (map Legacy.lid shs) ->
  (forall sh, In sh shs -> List.NoDup (P sh) /\ forall x, In x (P sh) -> x = Legacy.lid sh) ->
  List.NoDup (flat_map P shs).
Proof.
  induction shs as [|sh shs IH]; simpl; intros Hnd HP; [apply List.NoDup_nil|].
  apply List.NoDup_cons_iff in Hnd as [Hx Hnd].
  apply List.NoDup_app; [apply (HP sh); auto|apply IH; auto|].
  intros a Ha Ha'. apply in_flat_map in Ha' as [sh' [Hsh' Ha']].
  apply (proj2 (HP sh (or_introl eq_refl))) in Ha.
  apply (proj2 (HP sh' (or_intror Hsh'))) in Ha'.
  apply Hx. rewrite <- Ha, Ha'. by apply in_map.
Qed.

Lemma legacy_fold_opt_in {A} (f : option A -> A -> option A) l acc c :
  (forall o r c, f o r = Some c -> o = Some c \/ c = r) ->
  fold_left f l acc = Some c -> acc = Some c \/ In c l.
Proof.
  intros Hf. revert acc. induction l as [|r l IH]; simpl; intros acc H; [auto|].
  destruct (IH _ H) as [H'|]; [|auto].
  destruct (Hf _ _ _ H') as [-> | ->]; auto.
Qed.

Lemma legacy_fold_opt_none {A} (f : option A -> A -> option A) l acc :
  (forall o r, f o r <> None) -> fold_left f l acc = None -> acc = None /\ l = [].
Proof.
  intros Hf. revert acc. induction l as [|r l IH]; simpl; intros acc H; [auto|].
  destruct (IH _ H) as [H' _]. by apply Hf in H'.
Qed.

Lemma legacy_choose_in localDay coin st l c :
  Legacy.choose localDay coin st l = Some c -> In c l.
Proof.
  unfold Legacy.choose. intros H.
  apply legacy_fold_opt_in in H as [H|H]; [discriminate|done|].
  intros [ch|] r c'; cbv zeta; repeat case_match; intros E; injection E; auto.
Qed.

Lemma legacy_choose_some localDay coin st l :
  l <> [] -> Legacy.choose localDay coin st l <> None.
Proof.
  unfold Legacy.choose. intros Hl H.
  apply legacy_fold_opt_none in H as [_ H]; [done|].
  intros [ch|] r; cbv zeta; repeat case_match; discriminate.
Qed.

Lemma legacy_keep_chosen_lid localDay coin st sh :
  Legacy.lid (Legacy.keep_chosen localDay coin st sh) = Legacy.lid sh.
Proof. unfold Legacy.keep_chosen. by repeat case_match. Qed.

Lemma legacy_keep_chosen_sub localDay coin st sh w :
  In w (Legacy.assigned (Legacy.keep_chosen localDay coin st sh)) -> In w (Legacy.assigned sh).
Proof.
  unfold Legacy.keep_chosen. case_match; [done|].
  case_match eqn:E; [|done]. simpl. intros [<- | []]. by apply legacy_choose_in in E.
Qed.

Lemma legacy_keep_chosen_short localDay coin st sh :
  length (Legacy.assigned (Legacy.keep_chosen localDay coin st sh)) <= 1.
Proof.
  unfold Legacy.keep_chosen. case_match eqn:Hl; [by apply Nat.leb_le|].
  case_match eqn:E; [simpl; lia|].
  exfalso. apply (legacy_choose_some localDay coin st (Legacy.assigned sh)); [|done].
  intros Ha. rewrite Ha in Hl. discriminate.
Qed.

(** The common shape of both branches of [handleSelect]: one shift's
    [assigned] array and one user's picks are rewritten in step. *)
Lemma legacy_sync_update st i u (P : list string) (a' : list string -> list string) :
  Legacy.Sync st -> In u Legacy.users ->
  (exists sh0, In sh0 (Legacy.lshifts st) /\ Legacy.lid sh0 = i) ->
  (forall sh w, In sh (Legacy.lshifts st) -> Legacy.lid sh = i -> In w Legacy.users ->
     (In w (a' (Legacy.assigned sh)) <-> if String.eqb w u then In i P else In w (Legacy.assigned sh))) ->
  (forall sh w, In sh (Legacy.lshifts st) -> Legacy.lid sh = i ->
     In w (a' (Legacy.assigned sh)) -> w = u \/ In w (Legacy.assigned sh)) ->
  List.NoDup P ->
  (forall x, x <> i -> (In x P <-> In x (Legacy.upicks st u))) ->
  Legacy.Sync (Legacy.mkLState
    (map (fun x => if String.eqb (Legacy.lid x) i then Legacy.set_assigned x (a' (Legacy.assigned x)) else x)
       (Legacy.lshifts st))
    (<[u := P]> (Legacy.userPicks st)) (Legacy.finishedUsers st)).
Proof.
  intros [H1 [H2 [H3 [H4 H5]]]] Hu [sh0 [Hsh0 Hi0]] Ha Ha' HPnd HP.
  set (g := fun x => if String.eqb (Legacy.lid x) i then Legacy.set_assigned x (a' (Legacy.assigned x)) else x).
  assert (Hg : forall x, Legacy.lid (g x) = Legacy.lid x) by (intros x; unfold g; by case_match).
  unfold Legacy.Sync; simpl. split; [|split; [|split; [|split]]].
  - by rewrite legacy_map_lid.
  - intros sh' w Hin Hw. apply in_map_iff in Hin as [sh [<- Hsh]].
    rewrite legacy_upicks_insert, Hg. unfold g.
    destruct (String.eqb_spec (Legacy.lid sh) i) as [Ei|Ni]; simpl.
    + rewrite (Ha sh w Hsh Ei Hw), Ei, (String.eqb_sym u w).
      destruct (String.eqb_spec w u); [done|]. rewrite <- Ei. by apply H2.
    + rewrite (String.eqb_sym u w). destruct (String.eqb_spec w u) as [->|]; [|by apply H2].
      rewrite HP; [by apply H2|done].
  - intros w Hw. rewrite legacy_upicks_insert. case_match; [done|by apply H3].
  - intros w x Hw Hx. rewrite legacy_upicks_insert in Hx.
    assert (Hlift : forall sh, In sh (Legacy.lshifts st) ->
      exists sh', In sh' (map g (Legacy.lshifts st)) /\ Legacy.lid sh' = Legacy.lid sh).
    { intros sh Hsh. exists (g sh). split; [by apply in_map|apply Hg]. }
    destruct (String.eqb_spec u w) as [<-|].
    + destruct (decide (x = i)) as [->|Nx].
      * rewrite <- Hi0. by apply Hlift.
      * apply HP in Hx; [|done]. destruct (H4 u x Hu Hx) as [sh [Hsh <-]]. by apply Hlift.
    + destruct (H4 w x Hw Hx) as [sh [Hsh <-]]. by apply Hlift.
  - intros sh' w Hin Hw. apply in_map_iff in Hin as [sh [<- Hsh]].
    unfold g in Hw. destruct (String.eqb_spec (Legacy.lid sh) i) as [Ei|]; simpl in Hw.
    + destruct (Ha' sh w Hsh Ei Hw) as [->|]; [done|by apply (H5 sh)].
    + by apply (H5 sh).
Qed.

Lemma legacy_find_in p (l : list Legacy.LShift) sh :
  List.find p l = Some sh -> In sh l /\ p sh = true.
Proof. apply find_some. Qed.

Lemma legacy_handleSelect_sync u shiftId st :
  Legacy.Sync st -> In u Legacy.users -> Legacy.Sync (Legacy.handleSelect (Some u) shiftId st).
Proof.
  intros HS Hu. unfold Legacy.handleSelect.
  destruct (default false (Legacy.finishedUsers st !! u)); [done|].
  destruct (List.find _ (Legacy.lshifts st)) as [sh0|] eqn:Hf; [|done].
  apply legacy_find_in in Hf as [Hsh0 Hi0]. apply String.eqb_eq in Hi0.
  pose proof HS as [H1 [H2 [H3 [H4 H5]]]].
  assert (Hiu : In u (Legacy.assigned sh0) <-> In shiftId (Legacy.upicks st u))
    by (rewrite <- Hi0; by apply H2).
  rewrite (legacy_replace_first_map shiftId); [|done|done].
  rewrite (legacy_replace_first_map shiftId); [|done|done].
  destruct (includes (Legacy.assigned sh0) u) eqn:Hinc.
  - apply includes_In in Hinc.
    destruct (legacy_remove_first_nodup shiftId (Legacy.upicks st u) (H3 u Hu)) as [Hnd Hout].
    apply (legacy_sync_update st shiftId u _ (List.filter (fun x => negb (String.eqb x u)))); try done.
    + by exists sh0.
    + intros sh w Hsh Ei Hw. rewrite filter_In.
      destruct (String.eqb_spec w u) as [->|Nw]; simpl.
      * split; [intros [_ ?]; discriminate|done].
      * split; [tauto|]. intros; by split.
    + intros sh w _ _ Hw. apply filter_In in Hw. tauto.
    + intros x Nx. by apply legacy_remove_first_ne.
  - destruct (Nat.leb Legacy.maxShiftsPerUser (length (Legacy.upicks st u))); [done|].
    assert (Hni : ~ In shiftId (Legacy.upicks st u)).
    { intros H. apply Hiu in H. apply includes_In in H. congruence. }
    apply (legacy_sync_update st shiftId u _ (fun a => (a ++ [u])%list)); try done.
    + by exists sh0.
    + intros sh w Hsh Ei Hw. rewrite in_app_iff.
      destruct (String.eqb_spec w u) as [->|Nw]; simpl.
      * split; [|auto]. intros _. apply in_app_iff. right. by left.
      * split; [intros [?|[?|[]]]; [done|congruence]|auto].
    + intros sh w _ _ Hw. apply in_app_iff in Hw as [?|[?|[]]]; auto.
    + apply List.NoDup_app; [by apply H3|constructor; [intros []|apply List.NoDup_nil]|].
      intros a Ha [<- | []]. done.
    + intros x Nx. rewrite in_app_iff. split; [intros [?|[?|[]]]; [done|congruence]|auto].
Qed.

Lemma legacy_addNewShift_sync d t st :
  Legacy.Sync st -> Legacy.Sync (Legacy.addNewShift d t st).
Proof.
  intros HS. unfold Legacy.addNewShift.
  destruct (String.eqb d ""); [done|]. cbv zeta.
  set (i := (d ++ "-" ++ Legacy.toLowerCase t)).
  destruct (existsb _ (Legacy.lshifts st)) eqn:Hex; [done|].
  assert (Hnew : forall sh, In sh (Legacy.lshifts st) -> Legacy.lid sh <> i).
  { intros sh Hsh E. assert (existsb (fun s => String.eqb (Legacy.lid s) i) (Legacy.lshifts st) = true)
      by (apply existsb_exists; exists sh; split; [done|by apply String.eqb_eq]). congruence. }
  destruct HS as [H1 [H2 [H3 [H4 H5]]]].
  unfold Legacy.Sync; simpl. unfold Legacy.upicks in *; simpl.
  split; [|split; [|split; [|split]]].
  - rewrite map_app. apply List.NoDup_app; [done|constructor; [intros []|apply List.NoDup_nil]|].
    intros a Ha [<- | []]. apply in_map_iff in Ha as [sh [E Hsh]]. by apply (Hnew sh).
  - intros sh u Hsh Hu. apply in_app_iff in Hsh as [Hsh|[<- | []]]; [by apply H2|simpl].
    split; [done|]. intros Hx. destruct (H4 u i Hu Hx) as [sh [Hsh E]]. by apply (Hnew sh).
  - done.
  - intros u x Hu Hx. destruct (H4 u x Hu Hx) as [sh [Hsh E]].
    exists sh. split; [apply in_app_iff; by left|done].
  - intros sh u Hsh Hw. apply in_app_iff in Hsh as [Hsh|[<- | []]]; [by apply (H5 sh)|done].
Qed.

Lemma legacy_resolveConflicts_sync localDay coin st :
  Legacy.Sync st -> Legacy.Sync (Legacy.resolveConflicts localDay coin st).
Proof.
  intros [H1 [H2 [H3 [H4 H5]]]]. unfold Legacy.resolveConflicts. cbv zeta.
  set (shs := map (Legacy.keep_chosen localDay coin st) (Legacy.lshifts st)).
  assert (Hlid : map Legacy.lid shs = map Legacy.lid (Legacy.lshifts st))
    by (apply legacy_map_lid; apply legacy_keep_chosen_lid).
  assert (Hup : forall u, In u Legacy.users ->
    Legacy.upicks (Legacy.mkLState shs (Legacy.rebuild shs (Legacy.userPicks st)) (Legacy.finishedUsers st)) u =
    flat_map (fun sh => map (fun _ => Legacy.lid sh) (List.filter (String.eqb u) (Legacy.assigned sh))) shs)
    by (intros u Hu; unfold Legacy.upicks; simpl; by apply legacy_rebuild_user).
  assert (Hnd : List.NoDup (map Legacy.lid shs)) by by rewrite Hlid.
  unfold Legacy.Sync. simpl. split; [done|split; [|split; [|split]]].
  - intros sh u Hsh Hu. rewrite Hup; [|done]. rewrite in_flat_map. split.
    + intros Hin. exists sh. split; [done|]. by apply legacy_piece_in.
    + intros [sh' [Hsh' Hin]]. apply legacy_piece_in in Hin as [E Hin].
      by rewrite (legacy_nodup_map_inj Legacy.lid shs sh sh').
  - intros u Hu. rewrite Hup; [|done]. apply legacy_flat_nodup; [done|].
    intros sh Hsh. split.
    + apply legacy_nodup_short. rewrite length_map.
      apply in_map_iff in Hsh as [sh0 [<- _]].
      pose proof (legacy_keep_chosen_short localDay coin st sh0).
      pose proof (filter_length_mono (String.eqb u) (fun _ => true)
        (Legacy.assigned (Legacy.keep_chosen localDay coin st sh0)) (fun _ _ _ => eq_refl)).
      rewrite (filter_all_true (fun _ => true)) in H0; [lia|intros; reflexivity].
    + intros x Hx. by apply legacy_piece_in in Hx as [-> _].
  - intros u x Hu Hx. rewrite Hup in Hx; [|done]. apply in_flat_map in Hx as [sh [Hsh Hx]].
    apply legacy_piece_in in Hx as [-> _]. by exists sh.
  - intros sh u Hsh Hw. apply in_map_iff in Hsh as [sh0 [<- Hsh0]].
    apply (H5 sh0); [done|]. by apply legacy_keep_chosen_sub in Hw.
Qed.

Lemma legacy_initial_sync : Legacy.Sync Legacy.initial.
Proof.
  assert (Hu : forall u, Legacy.upicks Legacy.initial u = []).
  { intros u. unfold Legacy.upicks, Legacy.initial. cbn [Legacy.userPicks].
    rewrite legacy_reset_lookup. by case_match. }
  unfold Legacy.Sync. simpl. split; [apply List.NoDup_nil|split; [|split; [|split]]].
  - intros sh u [].
  - intros u _. rewrite Hu. apply List.NoDup_nil.
  - intros u x _. rewrite Hu. intros [].
  - intros sh u [].
Qed.

Lemma legacy_finishSelection_sync cu st :
  Legacy.Sync st -> Legacy.Sync (Legacy.finishSelection cu st).
Proof. destruct cu; [|done]. intros HS. exact HS. Qed.

Lemma legacy_reachable_sync st : Legacy.Reachable st -> Legacy.Sync st.
Proof.
  induction 1 as [|cu sid st _ IH Hu|d t st _ IH|cu st _ IH|localDay coin st _ IH].
  - apply legacy_initial_sync.
  - destruct cu as [u|]; [|done]. apply legacy_handleSelect_sync; [done|by apply Hu].
  - by apply legacy_addNewShift_sync.
  - by apply legacy_finishSelection_sync.
  - by apply legacy_resolveConflicts_sync.
Qed.

Lemma whoIsAssigned_In st sid r :
  In r (whoIsAssigned st sid) <-> In r (residents st) /\ In sid (picksOf st r).
Proof.
  unfold whoIsAssigned. rewrite filter_In. split; intros [H1 H2]; split; try done.
  - by apply includes_In.
  - by apply includes_In.
Qed.

(** C6: the assigned view of a shift never drifts from the per-resident
    claim lists. In the resolver (src/unnamed/part_000) [whoIsAssigned]
    is computed from [state.picks]: a resident is listed exactly when
    the shift id is in their claim list. In src/script.js, which keeps
    both [shift.assigned] and [userPicks], every state reached from the
    start through [handleSelect], [addNewShift], [finishSelection] and
    [resolveConflicts] has, for each of its shifts, [assigned] equal as
    a set to the users whose picks contain the shift id. *)
Theorem assigned_view_never_drifts :
  (forall st sid r, In r (whoIsAssigned st sid) <-> In r (residents st) /\ In sid (picksOf st r)) /\
  (forall st, Legacy.Reachable st ->
     forall sh x, In sh (Legacy.lshifts st) ->
       (In x (Legacy.assigned sh) <-> In x Legacy.users /\ In (Legacy.lid sh) (Legacy.upicks st x))).
Proof.
  split; [apply whoIsAssigned_In|].
  intros st Hr sh x Hsh. pose proof (legacy_reachable_sync st Hr) as [_ [H2 [_ [_ H5]]]].
  split.
  - intros Hx. assert (Hu : In x Legacy.users) by (by apply (H5 sh)).
    split; [done|]. by apply H2.
  - intros [Hu Hp]. by apply H2.
Qed.

Lemma assigned_view_never_drifts_witness :
  Legacy.Reachable Legacy.session /\
  Legacy.assigned (hd (Legacy.mkLShift "" "" "" []) (Legacy.lshifts Legacy.session)) = ["Resident 1"; "Resident 2"] /\
  (In "Resident 2" (Legacy.assigned (hd (Legacy.mkLShift "" "" "" []) (Legacy.lshifts Legacy.session))) <->
   In "Resident 2" Legacy.users /\
   In (Legacy.lid (hd (Legacy.mkLShift "" "" "" []) (Legacy.lshifts Legacy.session))) (Legacy.upicks Legacy.session "Resident 2")).
Proof.
  assert (Hr : Legacy.Reachable Legacy.session).
  { unfold Legacy.session.
    apply Legacy.reach_select; [|intros u E; injection E as <-; simpl; tauto].
    apply Legacy.reach_select; [|intros u E; injection E as <-; simpl; tauto].
    apply Legacy.reach_add, Legacy.reach_initial. }
  split; [exact Hr|split; [vm_compute; reflexivity|]].
  apply (proj2 assigned_view_never_drifts Legacy.session Hr).
  vm_compute. left. reflexivity.
Defined.

(* ================================================================== *)
(** ** Further properties of the clean version *)




Lemma nodup_map_filter {A B} (f : A -> B) (p : A -> bool) l :
  List.NoDup (map f l) -> List.NoDup (map f (List.filter p l)).
Proof.
  induction l as [|x xs IH]; simpl; intros Hnd; [done|].
  apply List.NoDup_cons_iff in Hnd as [Hx Hnd].
  destruct (p x); simpl; [|by apply IH]. constructor; [|by apply IH].
  intros Hin. apply Hx. apply in_map_iff in Hin as [y [E Hy]].
  apply filter_In in Hy as [Hy _]. rewrite <- E. by apply in_map.
Qed.

Lemma assignShift_cases rnd st s st' :
  assignShift rnd st s = Some st' ->
  st' = st \/ exists c, eligible st (id s) c = true /\ st' = push_pick st c (id s).
Proof.
  unfold assignShift. destruct (sort_by _ _) as [|chosen rest]; [discriminate|].
  destruct (eligible st (id s) chosen) eqn:Ec.
  - intros [= <-]. right. by exists chosen.
  - destruct (List.find _ rest) as [c|] eqn:Ef; intros [= <-]; [|by left].
    right. exists c. split; [|done]. by apply find_some in Ef as [_ ?].
Qed.

Lemma fold_assign_none rnd shs :
  fold_left (fun o s => match o with Some st' => assignShift rnd st' s | None => None end) shs None = None.
Proof. induction shs; simpl; done. Qed.

Lemma eligible_not_in st sid c : eligible st sid c = true -> ~ In sid (picksOf st c).
Proof.
  unfold eligible. intros H Hin. apply andb_prop in H as [H _].
  apply negb_true_iff in H. apply includes_In in Hin. congruence.
Qed.

Lemma assign_fold_appends rnd shs st st' :
  fold_left (fun o s => match o with Some st' => assignShift rnd st' s | None => None end) shs (Some st) = Some st' ->
  shifts st' = shifts st /\ residents st' = residents st /\ slotsPerResident st' = slotsPerResident st /\
  forall r, exists extra, picksOf st' r = (picksOf st r ++ extra)%list /\
    (forall x, In x extra -> In x (map id shs)) /\
    (List.NoDup (picksOf st r) -> List.NoDup (picksOf st' r)).
Proof.
  revert st. induction shs as [|s shs IH]; intros st; simpl.
  - intros [= <-]. split; [done|split; [done|split; [done|]]].
    intros r. exists []. rewrite app_nil_r. split; [done|split; [intros ? []|done]].
  - destruct (assignShift rnd st s) as [st1|] eqn:Ea; [|by rewrite fold_assign_none].
    intros Hf. destruct (IH st1 Hf) as (Hs & Hr & Hsl & Hp).
    apply assignShift_cases in Ea as [->|[c [Hel ->]]].
    + split; [done|split; [done|split; [done|]]]. intros r.
      destruct (Hp r) as (extra & E & Hx & Hnd). exists extra.
      split; [done|split; [|done]]. intros x Hin. right. by apply Hx.
    + split; [exact Hs|split; [exact Hr|split; [exact Hsl|]]]. intros r.
      destruct (Hp r) as (extra & E & Hx & Hnd). rewrite picksOf_push in E.
      destruct (String.eqb_spec c r) as [<-|].
      * exists ([id s] ++ extra)%list. split; [by rewrite E, app_assoc|split].
        -- intros x [<-|Hin]; [by left|right; by apply Hx].
        -- intros Hnd0. apply Hnd. rewrite picksOf_push, String.eqb_refl. apply List.NoDup_app; [done|repeat constructor; intros []|].
           intros a Ha [<-|[]]. by apply (eligible_not_in st (id s) c).
      * exists extra. split; [by rewrite E|split; [|intros H0; apply Hnd; rewrite picksOf_push; by destruct (String.eqb_spec c r)]]. intros x Hin. right. by apply Hx.
Qed.

(** The random fill only appends: every earlier pick stays where it was,
    the ids handed out are ids of shifts that had no claimant when the
    pass began, no pick list gains a repeated id, and the registry,
    residents and quota are untouched. *)
Theorem randomAssignRemaining_only_appends :
  forall rnd st st', randomAssignRemaining rnd st = Some st' ->
    shifts st' = shifts st /\ residents st' = residents st /\
    forall r, exists extra, picksOf st' r = (picksOf st r ++ extra)%list /\
      (forall x, In x extra -> exists s, In s (shifts st) /\ id s = x /\ whoIsAssigned st x = []) /\
      (List.NoDup (picksOf st r) -> List.NoDup (picksOf st' r)).
Proof.
  intros rnd st st' H. unfold randomAssignRemaining in H.
  destruct (assign_fold_appends rnd _ st st' H) as (Hs & Hr & _ & Hp).
  split; [done|split; [done|]]. intros r. destruct (Hp r) as (extra & E & Hx & Hnd).
  exists extra. split; [done|split; [|done]]. intros x Hin.
  apply Hx, in_map_iff in Hin as [s [<- Hs']]. unfold emptyShifts in Hs'.
  apply filter_In in Hs' as [Hs' Hz]. exists s. split; [done|split; [done|]].
  apply Nat.eqb_eq, length_zero_iff_nil in Hz. done.
Qed.

Lemma randomAssignRemaining_only_appends_witness :
  randomAssignRemaining (fun _ _ => 0%Z) roomLeft =
    Some (push_pick roomLeft "B" (id S4)) /\
  picksOf (push_pick roomLeft "B" (id S4)) "B" = (picksOf roomLeft "B" ++ [id S4])%list.
Proof.
  assert (H : randomAssignRemaining (fun _ _ => 0%Z) roomLeft = Some (push_pick roomLeft "B" (id S4)))
    by (vm_compute; reflexivity).
  split; [exact H|].
  destruct (randomAssignRemaining_only_appends (fun _ _ => 0%Z) roomLeft _ H) as (_ & _ & Hp).
  vm_compute. reflexivity.
Defined.

(** The registry's ids stay distinct: adding a shift and removing one
    keep them pairwise different, and the ledger commands (ticking,
    unticking, conflict resolution, random fill) leave the registry as
    it is. *)
Theorem registry_ids_stay_distinct :
  (forall st, List.NoDup (map id (shifts st)) ->
     (forall d t, List.NoDup (map id (shifts (fst (addShift st d t))))) /\
     (forall sid, List.NoDup (map id (shifts (removeShift st sid))))) /\
  (forall st name sid, shifts (fst (claim st name sid)) = shifts st /\ shifts (unclaim st name sid) = shifts st) /\
  (forall rnd st, shifts (resolveConflictsFair rnd st) = shifts st) /\
  (forall rnd st st', randomAssignRemaining rnd st = Some st' -> shifts st' = shifts st).
Proof.
  split; [|split; [|split]].
  - intros st Hnd. split.
    + intros d t. unfold addShift.
      destruct (String.eqb d "" || String.eqb t ""); [done|]. cbv zeta.
      destruct (existsb _ (shifts st)) eqn:Ex; [done|]. simpl.
      rewrite map_app. apply List.NoDup_app; [done|repeat constructor; intros []|].
      intros a Ha [<-|[]]. apply in_map_iff in Ha as [s [E Hs]].
      assert (existsb (fun s => String.eqb (id s) (idFor d t)) (shifts st) = true)
        by (apply existsb_exists; exists s; split; [done|by apply String.eqb_eq]).
      congruence.
    + intros sid. unfold removeShift. rewrite (proj2 (removeShift_fold_fields _ _ _)).
      simpl. by apply nodup_map_filter.
  - intros st name sid. unfold claim, unclaim, unpick.
    split; [|done]. destruct (Nat.leb _ _); [done|]. by destruct (includes _ _).
  - intros rnd st. unfold resolveConflictsFair. apply resolve_fold_fields.
  - intros rnd st st' H. by apply (randomAssignRemaining_only_appends rnd st st' H).
Qed.

Lemma registry_ids_stay_distinct_witness :
  List.NoDup (map id (shifts scenario)) /\
  List.NoDup (map id (shifts (fst (addShift scenario "2025-09-12" "Puerta")))) /\
  shifts (resolveConflictsFair (fun _ _ => 0%Z) scenario) = shifts scenario.
Proof.
  assert (H : List.NoDup (map id (shifts scenario))).
  { vm_compute. repeat (constructor; [simpl; intuition discriminate|]). constructor. }
  split; [exact H|split; [exact (proj1 (proj1 registry_ids_stay_distinct scenario H) _ _)|]].
  exact (proj1 (proj2 (proj2 registry_ids_stay_distinct)) _ _).
Defined.

(** [hydrateResidents] never overwrites a pick list: a listed resident
    keeps the array it has and gets [[]] only when it has none, and every
    other key is left alone. *)
Theorem hydrate_keeps_existing :
  forall rs (p : gmap string (list string)) r,
    hydrate rs p !! r = if existsb (String.eqb r) rs then Some (default [] (p !! r)) else p !! r.
Proof.
  intros rs. induction rs as [|x rs IH]; intros p r; simpl; [done|].
  rewrite IH. rewrite (String.eqb_sym r x).
  destruct (String.eqb_spec x r) as [<-|Hne]; simpl.
  - destruct (existsb _ rs); destruct (p !! x) eqn:E; rewrite ?E; simpl;
      rewrite ?lookup_insert_eq; done.
  - destruct (p !! x) eqn:E; [done|].
    by rewrite !lookup_insert_ne.
Qed.

(** [statsFor]: the Monday/Friday count never exceeds the total. *)
Theorem statsFor_monfri_le_total :
  forall st name, (monfri (statsFor st name) <= total (statsFor st name))%nat.
Proof.
  intros st name. unfold statsFor. simpl.
  assert (Hgen : forall ids c, (fold_left (fun c i =>
       c + match find_shift (shifts st) i with
           | Some s => if isMonOrFri (date s) then 1 else 0
           | None => 0
           end) ids c <= c + length ids)%nat).
  { induction ids as [|i ids IH]; intros c; simpl; [lia|].
    specialize (IH (c + match find_shift (shifts st) i with
           | Some s => if isMonOrFri (date s) then 1 else 0
           | None => 0
           end)%nat).
    destruct (find_shift (shifts st) i) as [s|]; [destruct (isMonOrFri (date s))|]; lia. }
  apply (Hgen _ 0%nat).
Qed.

Lemma resolveShift_uncontested rnd st0 st s r x :
  (length (whoIsAssigned st0 x) <= 1)%nat ->
  includes (picksOf (resolveShift rnd st0 st s) r) x = includes (picksOf st r) x.
Proof.
  intros Hx. unfold resolveShift. destruct (Nat.leb _ 1) eqn:Hl; [done|].
  rewrite unpickAllBut_includes.
  destruct (String.eqb_spec x (id s)) as [->|]; [|by rewrite andb_false_r, andb_true_r].
  apply Nat.leb_gt in Hl. lia.
Qed.

(** The fair resolution only ever removes picks, and only picks of shifts
    that had two or more claimants when it started; the registry and the
    residents are untouched. *)
Theorem resolveConflictsFair_only_drops_contested :
  forall rnd st,
    shifts (resolveConflictsFair rnd st) = shifts st /\
    residents (resolveConflictsFair rnd st) = residents st /\
    (forall r x, In x (picksOf (resolveConflictsFair rnd st) r) -> In x (picksOf st r)) /\
    (forall r x, (length (whoIsAssigned st x) <= 1)%nat ->
       (In x (picksOf (resolveConflictsFair rnd st) r) <-> In x (picksOf st r))).
Proof.
  intros rnd st. unfold resolveConflictsFair.
  destruct (resolve_fold_fields rnd st (shifts st) st) as [Hr Hs].
  split; [done|split; [done|split]].
  - intros r x H. apply includes_In. apply (resolve_fold_mono rnd st (shifts st) st r x).
    by apply includes_In.
  - intros r x Hx. rewrite <- !includes_In.
    assert (Hgen : forall shs st', includes (picksOf (fold_left (resolveShift rnd st) shs st') r) x =
                                   includes (picksOf st' r) x).
    { induction shs as [|s shs IH]; intros st'; simpl; [done|].
      rewrite IH. by apply resolveShift_uncontested. }
    by rewrite Hgen.
Qed.

Lemma resolveConflictsFair_only_drops_contested_witness :
  (length (whoIsAssigned scenario (id S2)) <= 1)%nat /\
  In (id S2) (picksOf (resolveConflictsFair (fun _ _ => 0%Z) scenario) "B").
Proof.
  assert (Hx : (length (whoIsAssigned scenario (id S2)) <= 1)%nat) by (vm_compute; lia).
  split; [exact Hx|].
  apply (proj2 (proj2 (proj2 (resolveConflictsFair_only_drops_contested (fun _ _ => 0%Z) scenario))) "B" (id S2) Hx).
  vm_compute. right. left. reflexivity.
Defined.

Section SortGeneral.
Context {A : Type} (cmp : A -> A -> Z) (R : A -> A -> Prop).
Hypothesis neg_R : forall x y, (cmp x y < 0)%Z -> R x y.
Hypothesis nneg_R : forall x y, ~ (cmp x y < 0)%Z -> R y x.

Lemma insert_by_sorted_gen x l : Sorted R l -> Sorted R (insert_by cmp x l).
Proof.
  induction l as [|y ys IH]; simpl; intros Hs; [by repeat constructor|].
  destruct (Z.ltb (cmp x y) 0) eqn:E.
  - apply Z.ltb_lt, neg_R in E. constructor; [done|]. by constructor.
  - apply Z.ltb_ge in E. inversion Hs; subst. constructor; [by apply IH|].
    destruct ys as [|z zs]; simpl; [constructor; apply nneg_R; lia|].
    destruct (Z.ltb (cmp x z) 0); constructor; [apply nneg_R; lia|].
    match goal with H : HdRel R y (z :: zs) |- _ => by inversion H end.
Qed.

Lemma sort_by_sorted_gen l : Sorted R (sort_by cmp l).
Proof.
  unfold sort_by.
  assert (Hgen : forall acc, Sorted R acc -> Sorted R (fold_left (fun acc x => insert_by cmp x acc) l acc)).
  { induction l as [|x xs IH]; intros acc Hacc; simpl; [done|].
    apply IH. by apply insert_by_sorted_gen. }
  apply Hgen. constructor.
Qed.

End SortGeneral.

Lemma string_ltb_false_leb a b : String.ltb a b = false -> String.leb b a = true.
Proof.
  unfold String.ltb, String.leb. rewrite (String.compare_antisym b a).
  by destruct (String.compare a b).
Qed.

(** The admin list and the planning table show the whole registry, each
    row's date (as a string) no later than the next row's, whatever
    [localeCompare] does on the types. *)
Theorem listShifts_sorted_by_date :
  forall localeCompare st,
    Permutation (shifts st) (listShifts localeCompare st) /\
    Sorted (fun a b => String.leb (date a) (date b) = true) (listShifts localeCompare st).
Proof.
  intros lc st. split; [apply sort_by_perm|]. unfold listShifts.
  apply sort_by_sorted_gen.
  - intros x y. destruct (String.ltb (date x) (date y)) eqn:E1.
    + intros _. unfold String.ltb, String.leb in *. by destruct (String.compare (date x) (date y)).
    + destruct (String.ltb (date y) (date x)) eqn:E2; [lia|].
      intros _. by apply string_ltb_false_leb.
  - intros x y. destruct (String.ltb (date x) (date y)) eqn:E1; [lia|].
    intros _. by apply string_ltb_false_leb.
Qed.

(** ** [renderPlanning]'s rebuilt [assigned] column *)

Lemma byId_fold_absent shs (m0 : gmap string nat) n sid :
  ~ In sid (map id shs) ->
  (fold_left (fun (acc : gmap string nat * nat) s => (<[id s := acc.2]> acc.1, S acc.2)) shs (m0, n)).1 !! sid = m0 !! sid.
Proof.
  revert m0 n. induction shs as [|s shs IH]; intros m0 n Hn; simpl; [done|].
  rewrite IH; [|intros H; apply Hn; by right].
  rewrite lookup_insert_ne; [done|]. intros E. apply Hn. left. done.
Qed.

Lemma byId_fold_at shs (m0 : gmap string nat) n k s :
  List.NoDup (map id shs) -> shs !! k = Some s ->
  (fold_left (fun (acc : gmap string nat * nat) s => (<[id s := acc.2]> acc.1, S acc.2)) shs (m0, n)).1 !! id s = Some (n + k)%nat.
Proof.
  revert m0 n k. induction shs as [|s0 shs IH]; intros m0 n k Hnd Hk; [done|].
  simpl in Hnd. apply List.NoDup_cons_iff in Hnd as [Hx Hnd]. simpl.
  destruct k as [|k]; simpl in Hk.
  - injection Hk as <-. rewrite byId_fold_absent; [|done]. rewrite lookup_insert_eq. f_equal. lia.
  - rewrite (IH _ _ k); [f_equal; lia|done|done].
Qed.

Lemma byId_at shs k s :
  List.NoDup (map id shs) -> shs !! k = Some s -> byId shs !! id s = Some k.
Proof. intros Hnd Hk. unfold byId. by rewrite (byId_fold_at shs ∅ 0 k s). Qed.

Lemma byId_some shs sid k :
  List.NoDup (map id shs) -> byId shs !! sid = Some k -> exists s, shs !! k = Some s /\ id s = sid.
Proof.
  intros Hnd Hm. destruct (in_dec string_dec sid (map id shs)) as [Hin|Hn].
  - apply in_map_iff in Hin as [s [<- Hs]]. apply list_elem_of_In, list_elem_of_lookup in Hs as [j Hj].
    rewrite (byId_at shs j s Hnd Hj) in Hm. injection Hm as <-. by exists s.
  - unfold byId in Hm. rewrite byId_fold_absent in Hm; [|done]. by rewrite lookup_empty in Hm.
Qed.

Lemma byId_none shs sid :
  ~ In sid (map id shs) -> byId shs !! sid = None.
Proof. intros Hn. unfold byId. rewrite byId_fold_absent; [|done]. apply lookup_empty. Qed.

Lemma includes_cons x l y : includes (x :: l) y = String.eqb y x || includes l y.
Proof. done. Qed.

Lemma pushAssigned_fold shs r ps a :
  List.NoDup (map id shs) -> List.NoDup ps -> length a = length shs ->
  (forall sid, In sid ps -> existsb (String.eqb sid) Object_prototype_keys = true -> In sid (map id shs)) ->
  exists a', fold_left (pushAssigned (byId shs) r) ps (Some a) = Some a' /\ length a' = length a /\
    forall k s, shs !! k = Some s ->
      a' !! k = (fun x => (x ++ if includes ps (id s) then [r] else [])%list) <$> a !! k.
Proof.
  intros Hnd. revert a. induction ps as [|sid ps IH]; intros a Hps Hlen Hproto; cbn [fold_left].
  - exists a. split; [done|split; [done|]]. intros k s _.
    destruct (a !! k); simpl; [by rewrite app_nil_r|done].
  - apply List.NoDup_cons_iff in Hps as [Hsid Hps].
    assert (Hproto' : forall x, In x ps -> existsb (String.eqb x) Object_prototype_keys = true -> In x (map id shs))
      by (intros x Hx; apply Hproto; by right).
    destruct (byId shs !! sid) as [k0|] eqn:Hm.
    + destruct (byId_some shs sid k0 Hnd Hm) as [s0 [Hs0 Hid0]].
      assert (Hk0 : (k0 < length a)%nat) by (rewrite Hlen; apply lookup_lt_Some with s0; done).
      destruct (IH (<[k0 := (default [] (a !! k0) ++ [r])%list]> a)) as (a' & E & Hl & Ha');
        [done|by rewrite length_insert|done|].
      assert (Hp : pushAssigned (byId shs) r (Some a) sid = Some (<[k0 := (default [] (a !! k0) ++ [r])%list]> a))
        by (unfold pushAssigned; by rewrite Hm).
      exists a'. rewrite Hp. split; [done|split; [by rewrite Hl, length_insert|]].
      intros k s Hk. rewrite (Ha' k s Hk), includes_cons.
      destruct (decide (k = k0)) as [->|Hne].
      * rewrite Hs0 in Hk. injection Hk as <-. rewrite list_lookup_insert_eq; [|done].
        rewrite Hid0, String.eqb_refl. simpl.
        destruct (lookup_lt_is_Some_2 a k0 Hk0) as [x Hx]. rewrite Hx. simpl.
        replace (includes ps sid) with false; [by rewrite app_nil_r|].
        symmetry. apply not_true_iff_false. by rewrite includes_In.
      * rewrite list_lookup_insert_ne; [|done].
        replace (String.eqb (id s) sid) with false; [done|].
        symmetry. apply String.eqb_neq. intros E'. apply Hne.
        rewrite <- E' in Hm. rewrite (byId_at shs k s Hnd Hk) in Hm. congruence.
    + assert (Hnot : ~ In sid (map id shs)).
      { intros Hin. apply in_map_iff in Hin as [s [<- Hs]].
        apply list_elem_of_In, list_elem_of_lookup in Hs as [j Hj].
        rewrite (byId_at shs j s Hnd Hj) in Hm. discriminate. }
      destruct (existsb (String.eqb sid) Object_prototype_keys) eqn:Ep.
      { exfalso. apply Hnot, Hproto; [by left|done]. }
      destruct (IH a) as (a' & E & Hl & Ha'); [done|done|done|].
      assert (Hp : pushAssigned (byId shs) r (Some a) sid = Some a)
        by (unfold pushAssigned; by rewrite Hm, Ep).
      exists a'. rewrite Hp. split; [done|split; [done|]]. intros k s Hk.
      rewrite (Ha' k s Hk), includes_cons.
      replace (String.eqb (id s) sid) with false; [done|].
      symmetry. apply String.eqb_neq. intros E'. apply Hnot. rewrite <- E'.
      apply in_map. apply list_elem_of_In, list_elem_of_lookup. by exists k.
Qed.

Lemma rebuild_fold st rs a :
  List.NoDup (map id (shifts st)) -> length a = length (shifts st) ->
  (forall r, In r rs -> exists ps, picks st !! r = Some ps /\ List.NoDup ps /\
     forall sid, In sid ps -> existsb (String.eqb sid) Object_prototype_keys = true -> In sid (map id (shifts st))) ->
  exists a', fold_left (fun oa r =>
     match picks st !! r with
     | Some ps => fold_left (pushAssigned (byId (shifts st)) r) ps oa
     | None => None
     end) rs (Some a) = Some a' /\ length a' = length a /\
    forall k s, shifts st !! k = Some s ->
      a' !! k = (fun x => (x ++ List.filter (fun r => includes (picksOf st r) (id s)) rs)%list) <$> a !! k.
Proof.
  intros Hnd. revert a. induction rs as [|r rs IH]; intros a Hlen Hr; cbn [fold_left].
  - exists a. split; [done|split; [done|]]. intros k s _. destruct (a !! k); simpl; [by rewrite app_nil_r|done].
  - destruct (Hr r (or_introl eq_refl)) as (ps & Hps & Hnd' & Hproto). rewrite Hps.
    destruct (pushAssigned_fold (shifts st) r ps a Hnd Hnd' Hlen Hproto) as (a1 & E1 & Hl1 & Ha1).
    rewrite E1.
    destruct (IH a1) as (a' & E & Hl & Ha'); [by rewrite Hl1|intros x Hx; apply Hr; by right|].
    exists a'. split; [done|split; [by rewrite Hl, Hl1|]]. intros k s Hk. rewrite (Ha' k s Hk), (Ha1 k s Hk).
    cbn [List.filter]. replace (picksOf st r) with ps by (unfold picksOf; by rewrite Hps).
    destruct (a !! k); simpl; [|done]. f_equal.
    destruct (includes ps (id s)); simpl; by rewrite <- app_assoc.
Qed.

Lemma insert_by_map {A B} (cmp : A -> A -> Z) (cmp' : B -> B -> Z) (g : A -> B) x l :
  (forall u v, cmp' (g u) (g v) = cmp u v) ->
  insert_by cmp' (g x) (map g l) = map g (insert_by cmp x l).
Proof.
  intros Hc. induction l as [|y l IH]; simpl; [done|].
  rewrite Hc. destruct (Z.ltb (cmp x y) 0); simpl; [done|]. by rewrite IH.
Qed.

Lemma sort_by_map {A B} (cmp : A -> A -> Z) (cmp' : B -> B -> Z) (g : A -> B) l :
  (forall u v, cmp' (g u) (g v) = cmp u v) ->
  sort_by cmp' (map g l) = map g (sort_by cmp l).
Proof.
  intros Hc. unfold sort_by.
  change (@nil B) with (map g (@nil A)). generalize (@nil A) as acc.
  induction l as [|x l IH]; intros acc; simpl; [done|].
  rewrite (insert_by_map cmp cmp' g x acc Hc). apply IH.
Qed.

Lemma zip_fmap_self {A B} (f : A -> B) (l : list A) :
  zip (f <$> l) l = map (fun s => (f s, s)) l.
Proof. induction l as [|x l IH]; [done|]. rewrite fmap_cons. cbn [zip_with map]. by rewrite IH. Qed.

Lemma markRows_distinct (w : string -> list string) conf l :
  List.NoDup (map id l) -> (forall s, In s l -> includes conf (id s) = false) ->
  markRows conf (map (fun s => (w (id s), s)) l) =
  map (fun s => (s, w (id s), Nat.ltb 1 (length (w (id s))))) l.
Proof.
  revert conf. induction l as [|s l IH]; intros conf Hnd Hc; simpl; [done|].
  simpl in Hnd. apply List.NoDup_cons_iff in Hnd as [Hn Hnd].
  assert (Hs : includes conf (id s) = false) by (apply Hc; by left).
  f_equal.
  - destruct (Nat.ltb 1 (length (w (id s)))); simpl;
      [by rewrite String.eqb_refl|by rewrite Hs].
  - apply IH; [done|]. intros t Ht.
    assert (Hne : String.eqb (id t) (id s) = false).
    { apply String.eqb_neq. intros E. apply Hn. rewrite <- E. by apply in_map. }
    destruct (Nat.ltb 1 (length (w (id s)))); simpl;
      [rewrite Hne; simpl|]; apply Hc; by right.
Qed.

(** The table's [assigned] column agrees with [whoIsAssigned]: when the
    shift ids are distinct and every resident has a pick array without
    repeats (naming no inherited object key that is not a shift id), the
    rebuild of [renderPlanning] does not throw and gives each shift
    exactly [whoIsAssigned(s.id)], in resident order; the table lists the
    shifts in the order of [listShifts], and a row is red exactly when two
    or more residents claim its shift. *)
Theorem renderPlanning_assigned_matches_whoIsAssigned :
  forall st,
    List.NoDup (map id (shifts st)) ->
    (forall r, In r (residents st) -> exists ps, picks st !! r = Some ps /\ List.NoDup ps /\
       forall sid, In sid ps -> existsb (String.eqb sid) Object_prototype_keys = true -> In sid (map id (shifts st))) ->
    rebuildAssigned st = Some ((fun s => whoIsAssigned st (id s)) <$> shifts st) /\
    forall localeCompare,
      planningRows localeCompare st =
      Some (map (fun s => (s, whoIsAssigned st (id s), Nat.ltb 1 (length (whoIsAssigned st (id s)))))
                (listShifts localeCompare st)).
Proof.
  intros st Hnd Hr.
  assert (Hreb : rebuildAssigned st = Some ((fun s => whoIsAssigned st (id s)) <$> shifts st)).
  { unfold rebuildAssigned.
    destruct (rebuild_fold st (residents st) ((fun _ => []) <$> shifts st)) as (a' & E & Hl & Ha');
      [done|by rewrite length_fmap|done|].
    rewrite E. f_equal. apply list_eq. intros k.
    rewrite list_lookup_fmap.
    destruct (shifts st !! k) as [s|] eqn:Hk.
    - rewrite (Ha' k s Hk), list_lookup_fmap, Hk. done.
    - simpl. apply lookup_ge_None_2. rewrite Hl, length_fmap. by apply lookup_ge_None_1. }
  split; [done|]. intros lc. unfold planningRows. rewrite Hreb. f_equal.
  rewrite zip_fmap_self.
  unfold listShifts.
  rewrite (sort_by_map (fun a b => if String.ltb (date a) (date b) then (-1)%Z
                                   else if String.ltb (date b) (date a) then 1%Z
                                   else lc (type a) (type b))
             _ (fun s => (whoIsAssigned st (id s), s))); [|done].
  apply (markRows_distinct (whoIsAssigned st)).
  - apply Permutation_NoDup with (map id (shifts st)); [|done].
    apply Permutation_map, sort_by_perm.
  - intros s _. done.
Qed.

Lemma renderPlanning_assigned_matches_whoIsAssigned_witness :
  rebuildAssigned scenario = Some ((fun s => whoIsAssigned scenario (id s)) <$> shifts scenario) /\
  map snd (default [] (planningRows (fun _ _ => 0%Z) scenario)) = [true; false; false; false].
Proof.
  assert (H : List.NoDup (map id (shifts scenario))).
  { vm_compute. repeat (constructor; [simpl; intuition discriminate|]). constructor. }
  destruct (renderPlanning_assigned_matches_whoIsAssigned scenario H) as [H1 H2].
  { intros r Hr. simpl in Hr. destruct Hr as [<- | [<- | []]].
    - exists [id S1]. split; [reflexivity|split].
      + repeat constructor. intros [].
      + intros sid Hs _. destruct Hs as [<- | []]. simpl. auto.
    - exists [id S1; id S2; id S3]. split; [reflexivity|split].
      + vm_compute. repeat (constructor; [simpl; intuition discriminate|]). constructor.
      + intros sid Hs _. simpl in Hs |- *. intuition. }
  split; [exact H1|]. rewrite H2. vm_compute. reflexivity.
Defined.

(** ** [resolveConflicts] of src/script.js and of the first version *)

Lemma legacy_rebuild_short_user shs (m : gmap string (list string)) u :
  In u Legacy.users -> (forall sh, In sh shs -> length (Legacy.assigned sh) <= 1) ->
  default [] (Legacy.rebuild shs m !! u) =
  map Legacy.lid (List.filter (fun sh => includes (Legacy.assigned sh) u) shs).
Proof.
  intros Hu Hs. rewrite legacy_rebuild_user; [|done].
  induction shs as [|sh shs IH]; [done|]. simpl.
  rewrite IH; [|intros x Hx; apply Hs; by right].
  pose proof (Hs sh (or_introl eq_refl)) as Hl.
  destruct (Legacy.assigned sh) as [|x [|y l]]; simpl in *; [done| |lia].
  unfold includes. simpl. rewrite orb_false_r.
  by destruct (String.eqb u x).
Qed.

Lemma legacy_choose_fold_min (localDay : string -> option Z) (coin : string -> string -> bool) st l acc c :
  fold_left (fun (chosen : option string) (res : string) =>
    match chosen with
    | None => Some res
    | Some ch =>
        let countA := Legacy.computeMonFriCount localDay st res in
        let countB := Legacy.computeMonFriCount localDay st ch in
        if Nat.ltb countA countB then Some res
        else if Nat.eqb countA countB then
          if Nat.ltb (length (Legacy.upicks st res)) (length (Legacy.upicks st ch)) then Some res
          else if Nat.eqb (length (Legacy.upicks st res)) (length (Legacy.upicks st ch)) then
            (if coin res ch then Some res else Some ch)
          else Some ch
        else Some ch
    end) l acc = Some c ->
  (forall x, acc = Some x ->
     Legacy.computeMonFriCount localDay st c < Legacy.computeMonFriCount localDay st x \/
     (Legacy.computeMonFriCount localDay st c = Legacy.computeMonFriCount localDay st x /\
      length (Legacy.upicks st c) <= length (Legacy.upicks st x))) /\
  (forall r, In r l ->
     Legacy.computeMonFriCount localDay st c < Legacy.computeMonFriCount localDay st r \/
     (Legacy.computeMonFriCount localDay st c = Legacy.computeMonFriCount localDay st r /\
      length (Legacy.upicks st c) <= length (Legacy.upicks st r))).
Proof.
  set (mf := Legacy.computeMonFriCount localDay st).
  revert acc. induction l as [|y l IH]; intros acc; simpl.
  - intros ->. split; [|done]. intros x E. injection E as ->. lia.
  - intros E.
    match type of E with fold_left _ _ ?a = _ => remember a as acc' eqn:Ea end.
    assert (Hstep : exists z, acc' = Some z /\
      (forall x, acc = Some x -> mf z < mf x \/
         (mf z = mf x /\ length (Legacy.upicks st z) <= length (Legacy.upicks st x))) /\
      (mf z < mf y \/ (mf z = mf y /\ length (Legacy.upicks st z) <= length (Legacy.upicks st y)))).
    { subst acc'. destruct acc as [x|].
      - fold mf.
        destruct (Nat.ltb_spec (mf y) (mf x)).
        { eexists; split; [done|]. split; [intros ? [= <-]; lia|lia]. }
        destruct (Nat.eqb_spec (mf y) (mf x)); [|eexists; split; [done|]; split; [intros ? [= <-]|]; lia].
        destruct (Nat.ltb_spec (length (Legacy.upicks st y)) (length (Legacy.upicks st x))).
        { eexists; split; [done|]. split; [intros ? [= <-]; lia|lia]. }
        destruct (Nat.eqb_spec (length (Legacy.upicks st y)) (length (Legacy.upicks st x)));
          [|eexists; split; [done|]; split; [intros ? [= <-]|]; lia].
        destruct (coin y x); (eexists; split; [done|]; split; [intros ? [= <-]|]; lia).
      - exists y. split; [done|]. split; [done|lia]. }
    destruct Hstep as (z & -> & Hz1 & Hz2).
    destruct (IH (Some z) E) as [Hc1 Hc2].
    specialize (Hc1 z eq_refl).
    split.
    + intros x Hx. specialize (Hz1 x Hx). lia.
    + intros r [<- | Hr]; [lia|]. by apply Hc2.
Qed.

Lemma legacy_choose_min localDay coin st l c :
  Legacy.choose localDay coin st l = Some c ->
  In c l /\
  forall r, In r l ->
    Legacy.computeMonFriCount localDay st c < Legacy.computeMonFriCount localDay st r \/
    (Legacy.computeMonFriCount localDay st c = Legacy.computeMonFriCount localDay st r /\
     length (Legacy.upicks st c) <= length (Legacy.upicks st r)).
Proof.
  intros H. split; [by eapply legacy_choose_in|].
  unfold Legacy.choose in H. apply legacy_choose_fold_min in H. apply H.
Qed.

Section V0Fold.
Variable n : string -> nat.

Lemma v0_fold_first_min l x0 :
  exists pre post,
    x0 :: l = (pre ++ fold_left (fun chosen res => if Nat.ltb (n res) (n chosen) then res else chosen) l x0 :: post)%list /\
    (forall r, In r pre -> n (fold_left (fun chosen res => if Nat.ltb (n res) (n chosen) then res else chosen) l x0) < n r) /\
    (forall r, In r (x0 :: l) -> n (fold_left (fun chosen res => if Nat.ltb (n res) (n chosen) then res else chosen) l x0) <= n r).
Proof.
  revert x0. induction l as [|y l IH]; intros x0; simpl.
  - exists [], []. split; [done|]. split; [done|]. intros r [<- | []]. lia.
  - destruct (Nat.ltb_spec (n y) (n x0)) as [Hlt|Hge].
    + destruct (IH y) as (pre & post & E & Hpre & Hall).
      set (c := fold_left _ l y) in *.
      exists (x0 :: pre), post. split; [by rewrite E|]. split.
      * intros r [<- | Hr]; [|by apply Hpre].
        specialize (Hall y (or_introl eq_refl)). lia.
      * intros r [<- | Hr]; [specialize (Hall y (or_introl eq_refl)); lia|by apply Hall].
    + destruct (IH x0) as (pre & post & E & Hpre & Hall).
      set (c := fold_left _ l x0) in *.
      destruct pre as [|p pre]; simpl in E; injection E as E1 E2.
      * exists [], (y :: l). rewrite <- E1. split; [done|]. split; [done|].
        intros r [<- | [<- | Hr]]; [lia|lia|].
        specialize (Hall r (or_intror Hr)). rewrite <- E1 in Hall. lia.
      * subst p. exists (x0 :: y :: pre), post. rewrite E2. split; [done|]. split.
        -- pose proof (Hpre x0 (or_introl eq_refl)) as Hx0.
           intros r [<- | [<- | Hr]]; [done|lia|]. apply Hpre; by right.
        -- intros r [<- | [<- | Hr]];
             [apply Hall; by left| |apply Hall; right; by rewrite E2].
           specialize (Hall x0 (or_introl eq_refl)). lia.
Qed.

End V0Fold.

Lemma lookup_map_list {A B} (f : A -> B) (l : list A) k :
  map f l !! k = f <$> l !! k.
Proof. revert k. induction l as [|x l IH]; intros [|k]; simpl; try done. Qed.

Lemma v0_choose_first_min st x rest :
  exists pre post,
    V0.choose st (x :: rest) = Some (fold_left (fun chosen res =>
      if Nat.ltb (length (Legacy.upicks st res)) (length (Legacy.upicks st chosen)) then res else chosen) rest x) /\
    x :: rest = (pre ++ fold_left (fun chosen res =>
      if Nat.ltb (length (Legacy.upicks st res)) (length (Legacy.upicks st chosen)) then res else chosen) rest x :: post)%list /\
    (forall r, In r pre -> length (Legacy.upicks st (fold_left (fun chosen res =>
      if Nat.ltb (length (Legacy.upicks st res)) (length (Legacy.upicks st chosen)) then res else chosen) rest x)) <
      length (Legacy.upicks st r)) /\
    (forall r, In r (x :: rest) -> length (Legacy.upicks st (fold_left (fun chosen res =>
      if Nat.ltb (length (Legacy.upicks st res)) (length (Legacy.upicks st chosen)) then res else chosen) rest x)) <=
      length (Legacy.upicks st r)).
Proof.
  destruct (v0_fold_first_min (fun u => length (Legacy.upicks st u)) rest x) as (pre & post & E & H1 & H2).
  exists pre, post. split; [|done].
  unfold V0.choose. simpl. by rewrite Nat.ltb_irrefl.
Qed.

Lemma v0_keep_chosen_short st sh :
  length (Legacy.assigned (V0.keep_chosen st sh)) <= 1.
Proof.
  unfold V0.keep_chosen. case_match eqn:Hl; [by apply Nat.leb_le|].
  destruct (Legacy.assigned sh) as [|x rest]; [done|].
  destruct (v0_choose_first_min st x rest) as (pre & post & -> & _). simpl. lia.
Qed.

(** [resolveConflicts] of src/script.js settles each shift on its own:
    a shift with at most one name is left as it is, and a contested shift
    keeps exactly one of its names, one with the fewest Monday/Friday
    guardias among them and, among those, the fewest picks (the counts
    taken before the loop; the random draw only decides full ties). *)
Theorem legacy_resolveConflicts_keeps_fairest :
  forall localDay coin st k sh,
    Legacy.lshifts st !! k = Some sh ->
    (length (Legacy.assigned sh) <= 1 ->
       Legacy.lshifts (Legacy.resolveConflicts localDay coin st) !! k = Some sh) /\
    (1 < length (Legacy.assigned sh) ->
       exists c, In c (Legacy.assigned sh) /\
         Legacy.lshifts (Legacy.resolveConflicts localDay coin st) !! k = Some (Legacy.set_assigned sh [c]) /\
         forall r, In r (Legacy.assigned sh) ->
           Legacy.computeMonFriCount localDay st c < Legacy.computeMonFriCount localDay st r \/
           (Legacy.computeMonFriCount localDay st c = Legacy.computeMonFriCount localDay st r /\
            length (Legacy.upicks st c) <= length (Legacy.upicks st r))).
Proof.
  intros localDay coin st k sh Hk.
  unfold Legacy.resolveConflicts. simpl. rewrite lookup_map_list, Hk. simpl.
  unfold Legacy.keep_chosen. split.
  - intros Hl. apply Nat.leb_le in Hl. by rewrite Hl.
  - intros Hl. apply Nat.leb_gt in Hl. rewrite Hl.
    destruct (Legacy.choose localDay coin st (Legacy.assigned sh)) as [c|] eqn:Hc.
    + destruct (legacy_choose_min localDay coin st _ c Hc) as [Hin Hmin].
      exists c. split; [done|]. split; [done|]. done.
    + exfalso. apply (legacy_choose_some localDay coin st (Legacy.assigned sh)); [|done].
      intros Ha. rewrite Ha in Hl. simpl in Hl. lia.
Qed.

(** [resolveConflicts] of the first version keeps, on a contested shift,
    the first of its names (in the order they were added) among those
    with the fewest picks: every name before it has strictly more picks,
    every name has at least as many; a shift with at most one name is
    left as it is. *)
Theorem v0_resolveConflicts_keeps_first_fewest :
  forall st k sh,
    Legacy.lshifts st !! k = Some sh ->
    (length (Legacy.assigned sh) <= 1 ->
       Legacy.lshifts (V0.resolveConflicts st) !! k = Some sh) /\
    (1 < length (Legacy.assigned sh) ->
       exists pre c post, Legacy.assigned sh = (pre ++ c :: post)%list /\
         Legacy.lshifts (V0.resolveConflicts st) !! k = Some (Legacy.set_assigned sh [c]) /\
         (forall r, In r pre -> length (Legacy.upicks st c) < length (Legacy.upicks st r)) /\
         (forall r, In r (Legacy.assigned sh) -> length (Legacy.upicks st c) <= length (Legacy.upicks st r))).
Proof.
  intros st k sh Hk.
  unfold V0.resolveConflicts. simpl. rewrite lookup_map_list, Hk. simpl.
  unfold V0.keep_chosen. split.
  - intros Hl. apply Nat.leb_le in Hl. by rewrite Hl.
  - intros Hl. apply Nat.leb_gt in Hl. rewrite Hl.
    destruct (Legacy.assigned sh) as [|x rest] eqn:Ha; [simpl in Hl; lia|].
    destruct (v0_choose_first_min st x rest) as (pre & post & Hc & E & H1 & H2).
    rewrite Hc. eexists pre, _, post. split; [exact E|]. split; [done|]. split; done.
Qed.

(** After [resolveConflicts], in src/script.js as in the first version,
    no shift has more than one name, and each user's picks are rebuilt as
    the ids of the shifts that now carry the user's name, in table order. *)
Theorem resolveConflicts_rebuilds_picks :
  forall u, In u Legacy.users ->
    (forall localDay coin st,
       (forall sh, In sh (Legacy.lshifts (Legacy.resolveConflicts localDay coin st)) ->
          length (Legacy.assigned sh) <= 1) /\
       Legacy.upicks (Legacy.resolveConflicts localDay coin st) u =
       map Legacy.lid (List.filter (fun sh => includes (Legacy.assigned sh) u)
                         (Legacy.lshifts (Legacy.resolveConflicts localDay coin st)))) /\
    (forall st,
       (forall sh, In sh (Legacy.lshifts (V0.resolveConflicts st)) -> length (Legacy.assigned sh) <= 1) /\
       Legacy.upicks (V0.resolveConflicts st) u =
       map Legacy.lid (List.filter (fun sh => includes (Legacy.assigned sh) u)
                         (Legacy.lshifts (V0.resolveConflicts st)))).
Proof.
  intros u Hu. split.
  - intros localDay coin st.
    assert (Hs : forall sh, In sh (Legacy.lshifts (Legacy.resolveConflicts localDay coin st)) ->
               length (Legacy.assigned sh) <= 1).
    { simpl. intros sh Hsh. apply in_map_iff in Hsh as [sh0 [<- _]]. apply legacy_keep_chosen_short. }
    split; [done|]. unfold Legacy.upicks at 1. simpl. by apply legacy_rebuild_short_user.
  - intros st.
    assert (Hs : forall sh, In sh (Legacy.lshifts (V0.resolveConflicts st)) ->
               length (Legacy.assigned sh) <= 1).
    { simpl. intros sh Hsh. apply in_map_iff in Hsh as [sh0 [<- _]]. apply v0_keep_chosen_short. }
    split; [done|]. unfold Legacy.upicks at 1. simpl. by apply legacy_rebuild_short_user.
Qed.

Lemma legacy_resolveConflicts_keeps_fairest_witness :
  exists sh, Legacy.lshifts Legacy.session !! 0 = Some sh /\ 1 < length (Legacy.assigned sh) /\
    exists c, In c (Legacy.assigned sh) /\
      Legacy.lshifts (Legacy.resolveConflicts (fun _ => None) (fun _ _ => true) Legacy.session) !! 0 =
      Some (Legacy.set_assigned sh [c]).
Proof.
  eexists. split; [vm_compute; reflexivity|]. split; [vm_compute; lia|].
  destruct (proj2 (legacy_resolveConflicts_keeps_fairest (fun _ => None) (fun _ _ => true) Legacy.session 0
              (Legacy.mkLShift "2025-09-01-puerta" "2025-09-01" "Puerta" ["Resident 1"; "Resident 2"])
              ltac:(vm_compute; reflexivity)) ltac:(vm_compute; lia)) as (c & Hc & Hk & _).
  exists c. split; [exact Hc|exact Hk].
Defined.

Lemma v0_resolveConflicts_keeps_first_fewest_witness :
  exists sh, Legacy.lshifts Legacy.session !! 0 = Some sh /\ 1 < length (Legacy.assigned sh) /\
    exists pre c post, Legacy.assigned sh = (pre ++ c :: post)%list /\
      Legacy.lshifts (V0.resolveConflicts Legacy.session) !! 0 = Some (Legacy.set_assigned sh [c]).
Proof.
  eexists. split; [vm_compute; reflexivity|]. split; [vm_compute; lia|].
  destruct (proj2 (v0_resolveConflicts_keeps_first_fewest Legacy.session 0
              (Legacy.mkLShift "2025-09-01-puerta" "2025-09-01" "Puerta" ["Resident 1"; "Resident 2"])
              ltac:(vm_compute; reflexivity)) ltac:(vm_compute; lia)) as (pre & c & post & E & Hk & _).
  exists pre, c, post. split; [exact E|exact Hk].
Defined.

Lemma resolveConflicts_rebuilds_picks_witness :
  In "Resident 1" Legacy.users /\
  Legacy.upicks (V0.resolveConflicts Legacy.session) "Resident 1" =
  map Legacy.lid (List.filter (fun sh => includes (Legacy.assigned sh) "Resident 1")
                    (Legacy.lshifts (V0.resolveConflicts Legacy.session))).
Proof.
  assert (Hu : In "Resident 1" Legacy.users) by (simpl; auto).
  split; [exact Hu|]. exact (proj2 (proj2 (resolveConflicts_rebuilds_picks "Resident 1" Hu) Legacy.session)).
Defined.

(** ** src/script.js: quota and undo of a selection *)

Lemma legacy_remove_first_length v l : length (Legacy.remove_first v l) <= length l.
Proof. induction l as [|x l IH]; simpl; [lia|]. destruct (String.eqb x v); simpl; lia. Qed.

Lemma legacy_remove_first_last v l : ~ In v l -> Legacy.remove_first v (l ++ [v])%list = l.
Proof.
  induction l as [|x l IH]; intros Hn; simpl; [by rewrite String.eqb_refl|].
  destruct (String.eqb_spec x v) as [-> | _]; [exfalso; apply Hn; by left|].
  rewrite IH; [done|]. intros H. apply Hn. by right.
Qed.

Lemma filter_map_length_le {A B} (f : A -> B) (P : B -> bool) (Q : A -> bool) l :
  (forall x, P (f x) = true -> Q x = true) ->
  length (List.filter P (map f l)) <= length (List.filter Q l).
Proof.
  intros H. induction l as [|x l IH]; simpl; [lia|].
  destruct (P (f x)) eqn:E.
  - rewrite (H x E). simpl. lia.
  - destruct (Q x); simpl; lia.
Qed.

Lemma legacy_resolveConflicts_picks_shrink localDay coin st u :
  Legacy.Sync st -> In u Legacy.users ->
  length (Legacy.upicks (Legacy.resolveConflicts localDay coin st) u) <= length (Legacy.upicks st u).
Proof.
  intros (Hnd & Hiff & Hnodup & Hex & Hus) Hu.
  unfold Legacy.upicks at 1. simpl.
  rewrite legacy_rebuild_short_user; [|done|].
  2:{ intros sh Hsh. apply in_map_iff in Hsh as [sh0 [<- _]]. apply legacy_keep_chosen_short. }
  rewrite length_map.
  etransitivity.
  { apply (filter_map_length_le _ _ (fun sh => includes (Legacy.assigned sh) u)).
    intros sh H. apply includes_In. apply includes_In in H.
    by eapply legacy_keep_chosen_sub. }
  rewrite <- (length_map Legacy.lid).
  apply NoDup_incl_length.
  - by apply nodup_map_filter.
  - intros x Hx. apply in_map_iff in Hx as [sh [<- Hsh]].
    apply filter_In in Hsh as [Hsh Hin]. apply includes_In in Hin.
    by apply (Hiff sh u Hsh Hu).
Qed.

Lemma legacy_push_fold_some shs (m : gmap string (list string)) u :
  is_Some (m !! u) ->
  is_Some (fold_left (fun m sh => fold_left (Legacy.push_to (Legacy.lid sh)) (Legacy.assigned sh) m) shs m !! u).
Proof.
  revert m. induction shs as [|sh shs IH]; intros m Hm; simpl; [done|].
  apply IH. generalize (Legacy.assigned sh). intros names. revert m Hm.
  induction names as [|w names IHn]; intros m Hm; simpl; [done|].
  apply IHn. unfold Legacy.push_to.
  destruct (String.eq_dec w u) as [-> | Hne].
  - rewrite lookup_insert_eq. by eexists.
  - by rewrite lookup_insert_ne.
Qed.

Lemma legacy_reachable_entries st :
  Legacy.Reachable st -> forall u, In u Legacy.users -> is_Some (Legacy.userPicks st !! u).
Proof.
  induction 1 as [|cu sid st Hr IH Hcu|d t st Hr IH|cu st Hr IH|localDay coin st Hr IH]; intros u Hu.
  - unfold Legacy.initial. cbn [Legacy.userPicks]. rewrite legacy_reset_lookup.
    replace (existsb (String.eqb u) Legacy.users) with true; [by eexists|].
    symmetry. apply existsb_exists. exists u. split; [done|apply String.eqb_refl].
  - unfold Legacy.handleSelect. destruct cu as [v|]; [|by apply IH].
    destruct (default false (Legacy.finishedUsers st !! v)); [by apply IH|].
    destruct (List.find _ _) as [sh|]; [|by apply IH].
    assert (Hins : forall l, is_Some (<[v := l]> (Legacy.userPicks st) !! u)).
    { intros l. destruct (String.eq_dec v u) as [-> | Hne].
      - rewrite lookup_insert_eq. by eexists.
      - rewrite lookup_insert_ne; [by apply IH|done]. }
    destruct (includes (Legacy.assigned sh) v); [apply Hins|].
    destruct (Nat.leb _ _); [by apply IH|apply Hins].
  - unfold Legacy.addNewShift. repeat case_match; by apply IH.
  - unfold Legacy.finishSelection. case_match; by apply IH.
  - simpl. unfold Legacy.rebuild. apply legacy_push_fold_some.
    rewrite legacy_reset_lookup.
    replace (existsb (String.eqb u) Legacy.users) with true; [by eexists|].
    symmetry. apply existsb_exists. exists u. split; [done|apply String.eqb_refl].
Qed.

Lemma legacy_replace_first_twice (p : Legacy.LShift -> bool) f g l x :
  List.find p l = Some x -> (forall y, p (g y) = p y) -> f (g x) = x ->
  Legacy.replace_first p f (Legacy.replace_first p g l) = l.
Proof.
  intros Hf Hp Hx. induction l as [|y l IH]; simpl in *; [done|].
  destruct (p y) eqn:E.
  - injection Hf as ->. simpl. by rewrite Hp, E, Hx.
  - simpl. rewrite E. by rewrite IH.
Qed.

Lemma legacy_find_replace_first (p : Legacy.LShift -> bool) g l x :
  List.find p l = Some x -> (forall y, p (g y) = p y) ->
  List.find p (Legacy.replace_first p g l) = Some (g x).
Proof.
  intros Hf Hp. induction l as [|y l IH]; simpl in *; [done|].
  destruct (p y) eqn:E.
  - injection Hf as ->. simpl. by rewrite Hp, E.
  - simpl. rewrite E. by apply IH.
Qed.

(** In every state the script reaches, no user holds more than
    [maxShiftsPerUser] (4) picks: [handleSelect] refuses a fifth one, and
    [resolveConflicts] only ever shrinks a user's picks. *)
Theorem legacy_picks_within_quota :
  forall st, Legacy.Reachable st ->
    forall u, In u Legacy.users -> length (Legacy.upicks st u) <= Legacy.maxShiftsPerUser.
Proof.
  induction 1 as [|cu sid st Hr IH Hcu|d t st Hr IH|cu st Hr IH|localDay coin st Hr IH]; intros u Hu.
  - unfold Legacy.upicks, Legacy.initial. cbn [Legacy.userPicks]. rewrite legacy_reset_lookup.
    replace (existsb (String.eqb u) Legacy.users) with true; [simpl; unfold Legacy.maxShiftsPerUser; lia|].
    symmetry. apply existsb_exists. exists u. split; [done|apply String.eqb_refl].
  - unfold Legacy.handleSelect. destruct cu as [v|]; [|by apply IH].
    destruct (default false (Legacy.finishedUsers st !! v)); [by apply IH|].
    destruct (List.find _ _) as [sh|]; [|by apply IH].
    destruct (includes (Legacy.assigned sh) v).
    + rewrite legacy_upicks_insert. destruct (String.eqb_spec v u) as [-> | _]; [|by apply IH].
      etransitivity; [apply legacy_remove_first_length|by apply IH].
    + destruct (Nat.leb_spec Legacy.maxShiftsPerUser (length (Legacy.upicks st v))); [by apply IH|].
      rewrite legacy_upicks_insert. destruct (String.eqb_spec v u) as [-> | _]; [|by apply IH].
      rewrite length_app. simpl. lia.
  - unfold Legacy.addNewShift. repeat case_match; by apply IH.
  - unfold Legacy.finishSelection. case_match; by apply IH.
  - etransitivity; [apply legacy_resolveConflicts_picks_shrink|by apply IH]; [|done].
    by apply legacy_reachable_sync.
Qed.

(** In every state the script reaches, ticking a shift the user does not
    hold and unticking it right away gives back the state exactly (the
    shift's [assigned] array and the user's picks as they were), whenever
    the tick is accepted: the user is logged in, not finished, the shift
    exists and the user is below the quota. *)
Theorem legacy_select_twice_restores :
  forall st u sid sh,
    Legacy.Reachable st -> In u Legacy.users ->
    default false (Legacy.finishedUsers st !! u) = false ->
    List.find (fun s => String.eqb (Legacy.lid s) sid) (Legacy.lshifts st) = Some sh ->
    ~ In u (Legacy.assigned sh) ->
    length (Legacy.upicks st u) < Legacy.maxShiftsPerUser ->
    Legacy.handleSelect (Some u) sid (Legacy.handleSelect (Some u) sid st) = st.
Proof.
  intros st u sid sh Hr Hu Hfin Hf Hn Hq.
  pose proof (legacy_reachable_sync st Hr) as (Hnd & Hiff & Hnodup & Hex & Hus).
  destruct (legacy_find_in _ _ _ Hf) as [Hsh Hid]. apply String.eqb_eq in Hid.
  assert (Hnp : ~ In sid (Legacy.upicks st u)).
  { rewrite <- Hid. intros H. apply Hn. by apply (Hiff sh u Hsh Hu). }
  assert (Hni : includes (Legacy.assigned sh) u = false).
  { apply not_true_iff_false. by rewrite includes_In. }
  unfold Legacy.handleSelect at 2. rewrite Hfin, Hf, Hni.
  replace (Nat.leb Legacy.maxShiftsPerUser (length (Legacy.upicks st u))) with false
    by (symmetry; apply Nat.leb_gt; lia).
  unfold Legacy.handleSelect. simpl. rewrite Hfin.
  rewrite (legacy_find_replace_first _ _ _ sh Hf); [|done].
  simpl. rewrite includes_app, String.eqb_refl, orb_true_r.
  rewrite legacy_upicks_insert, String.eqb_refl, legacy_remove_first_last; [|done].
  rewrite (legacy_replace_first_twice _ _ _ _ sh Hf); [| done |].
  2:{ destruct sh as [i d t a]. unfold Legacy.set_assigned. simpl in *. f_equal.
      rewrite List.filter_app. simpl. rewrite String.eqb_refl. simpl. rewrite app_nil_r.
      clear -Hn. induction a as [|x a IH]; simpl; [done|].
      destruct (String.eqb_spec x u) as [-> | _]; [exfalso; apply Hn; by left|].
      simpl. rewrite IH; [done|]. intros H. apply Hn. by right. }
  rewrite insert_insert_eq.
  destruct (legacy_reachable_entries st Hr u Hu) as [l Hl].
  rewrite insert_id; [by destruct st|].
  unfold Legacy.upicks. by rewrite Hl.
Qed.

Lemma legacy_picks_within_quota_witness :
  Legacy.Reachable Legacy.session /\ In "Resident 2" Legacy.users /\
  length (Legacy.upicks Legacy.session "Resident 2") <= Legacy.maxShiftsPerUser.
Proof.
  assert (Hr : Legacy.Reachable Legacy.session).
  { unfold Legacy.session.
    apply Legacy.reach_select; [|intros u [= <-]; simpl; auto].
    apply Legacy.reach_select; [|intros u [= <-]; simpl; auto].
    apply Legacy.reach_add, Legacy.reach_initial. }
  assert (Hu : In "Resident 2" Legacy.users) by (simpl; auto).
  split; [exact Hr|split; [exact Hu|exact (legacy_picks_within_quota _ Hr _ Hu)]].
Defined.

Lemma legacy_select_twice_restores_witness :
  Legacy.handleSelect (Some "Resident 1") "2025-09-01-puerta"
    (Legacy.handleSelect (Some "Resident 1") "2025-09-01-puerta"
       (Legacy.addNewShift "2025-09-01" "Puerta" Legacy.initial)) =
  Legacy.addNewShift "2025-09-01" "Puerta" Legacy.initial.
Proof.
  apply (legacy_select_twice_restores _ _ _
           (Legacy.mkLShift "2025-09-01-puerta" "2025-09-01" "Puerta" [])).
  - apply Legacy.reach_add, Legacy.reach_initial.
  - simpl; auto.
  - vm_compute. reflexivity.
  - vm_compute. reflexivity.
  - intros [].
  - vm_compute. lia.
Defined.

(** ** [renderCalendar]: the [mon] and [fri] classes follow the columns *)

Lemma digits_acc_app s1 s2 a :
  Calendar.digits_acc (s1 ++ s2) a =
  match Calendar.digits_acc s1 a with Some b => Calendar.digits_acc s2 b | None => None end.
Proof.
  revert a. induction s1 as [|c s1 IH]; intros a; simpl; [done|].
  destruct (Calendar.digit_val c); [apply IH|done].
Qed.

Lemma digit_val_nonneg c v : Calendar.digit_val c = Some v -> (0 <= v < 10)%Z.
Proof.
  unfold Calendar.digit_val. case_match eqn:E; [|done]. intros [= <-].
  apply andb_prop in E as [E1 E2]. apply Nat.leb_le in E1, E2. lia.
Qed.

Lemma digits_acc_nonneg s a b : (0 <= a)%Z -> Calendar.digits_acc s a = Some b -> (0 <= b)%Z.
Proof.
  revert a. induction s as [|c s IH]; intros a Ha; simpl; [by intros [= <-]|].
  destruct (Calendar.digit_val c) as [v|] eqn:Ev; [|done].
  apply digit_val_nonneg in Ev. apply IH. lia.
Qed.

Lemma digit_val_of_digit (n : Z) :
  (0 <= n)%Z -> Calendar.digit_val (ascii_of_nat (48 + Z.to_nat (n mod 10))) = Some (n mod 10)%Z.
Proof.
  intros Hn. unfold Calendar.digit_val.
  assert (Hr : (0 <= n mod 10 < 10)%Z) by (apply Z.mod_pos_bound; lia).
  rewrite nat_ascii_embedding; [|lia].
  replace (Nat.leb 48 (48 + Z.to_nat (n mod 10))) with true by (symmetry; apply Nat.leb_le; lia).
  replace (Nat.leb (48 + Z.to_nat (n mod 10)) 57) with true by (symmetry; apply Nat.leb_le; lia).
  simpl. f_equal. lia.
Qed.

Lemma digits_of_value f (n : Z) acc a :
  (0 <= n)%Z -> (Z.to_nat n < f)%nat ->
  exists k, (0 <= k)%Z /\
    Calendar.digits_acc (Calendar.digits_of f n acc) a = Calendar.digits_acc acc (a * 10 ^ k + n)%Z.
Proof.
  revert n acc a. induction f as [|f IH]; intros n acc a Hn Hf; [lia|].
  cbn [Calendar.digits_of].
  destruct (Z.ltb_spec n 10) as [Hlt|Hge].
  - exists 1%Z. split; [lia|]. cbn [Calendar.digits_acc]. rewrite digit_val_of_digit; [|done]. f_equal.
    rewrite Z.mod_small; lia.
  - destruct (IH (n / 10)%Z (String (ascii_of_nat (48 + Z.to_nat (n mod 10))) acc) a) as (k & Hk0 & Hk).
    + apply Z.div_pos; lia.
    + assert (n / 10 < n)%Z by (apply Z.div_lt; lia). lia.
    + rewrite Hk. cbn [Calendar.digits_acc]. rewrite digit_val_of_digit; [|done].
      exists (k + 1)%Z. split; [lia|]. f_equal. rewrite Z.pow_add_r; [|done|lia].
      pose proof (Z.div_mod n 10). lia.
Qed.

Lemma Number_toString_roundtrip (n : Z) :
  (0 <= n)%Z -> Calendar.Number (Calendar.Number_toString n) = Some n.
Proof.
  intros Hn. unfold Calendar.Number, Calendar.Number_toString.
  destruct (digits_of_value (S (Z.to_nat n)) n EmptyString 0 Hn ltac:(lia)) as (k & _ & Hk).
  rewrite Hk. simpl. f_equal.
Qed.

Lemma zeros_value k : Calendar.digits_acc (Calendar.zeros k) 0 = Some 0%Z.
Proof. induction k as [|k IH]; [done|]. exact IH. Qed.

Lemma padStart2_value s : Calendar.Number (Calendar.padStart2 s) = Calendar.Number s.
Proof. unfold Calendar.Number, Calendar.padStart2. by rewrite digits_acc_app, zeros_value. Qed.

Lemma split_on_not_nil sep s : Calendar.split_on sep s <> [].
Proof. destruct s as [|c s]; simpl; [done|]. case_match; [done|]. by case_match. Qed.

Lemma split_on_digits s a b : Calendar.digits_acc s a = Some b -> Calendar.split_on "-"%char s = [s].
Proof.
  revert a. induction s as [|c s IH]; intros a; simpl; [done|].
  destruct (Calendar.digit_val c) as [v|] eqn:Ev; [|done]. intros H.
  replace (Ascii.eqb c "-"%char) with false.
  - by rewrite (IH _ H).
  - symmetry. apply Ascii.eqb_neq. intros ->. discriminate.
Qed.

Lemma split_on_app_sep sep s1 s2 :
  Calendar.split_on sep s1 = [s1] ->
  Calendar.split_on sep (s1 ++ String sep s2) = s1 :: Calendar.split_on sep s2.
Proof.
  induction s1 as [|c s1 IH]; intros H; simpl.
  - by rewrite Ascii.eqb_refl.
  - simpl in H. destruct (Ascii.eqb c sep); [discriminate|].
    destruct (Calendar.split_on sep s1) as [|w ws] eqn:E; [by apply split_on_not_nil in E|].
    injection H as -> ->. by rewrite IH.
Qed.

Lemma split_on_dash s1 s2 :
  Calendar.split_on "-"%char s1 = [s1] ->
  Calendar.split_on "-"%char (s1 ++ "-" ++ s2) = s1 :: Calendar.split_on "-"%char s2.
Proof. apply split_on_app_sep. Qed.

Lemma Number_toString_digits (n : Z) : (0 <= n)%Z ->
  Calendar.split_on "-"%char (Calendar.Number_toString n) = [Calendar.Number_toString n].
Proof. intros Hn. apply (split_on_digits _ 0 n). apply (Number_toString_roundtrip n Hn). Qed.

Lemma padStart2_digits (n : Z) : (0 <= n)%Z ->
  Calendar.split_on "-"%char (Calendar.padStart2 (Calendar.Number_toString n)) =
  [Calendar.padStart2 (Calendar.Number_toString n)].
Proof.
  intros Hn. apply (split_on_digits _ 0 n).
  pose proof (padStart2_value (Calendar.Number_toString n)) as H.
  unfold Calendar.Number in H. rewrite H. apply (Number_toString_roundtrip n Hn).
Qed.

Lemma calIso_weekday (by' bm : Z) d :
  (0 <= by')%Z -> (0 <= bm)%Z ->
  Calendar.weekdayUTC (calIso by' bm d) =
  Some (Calendar.getUTCDay (Calendar.Date_UTC_day by' (bm - 1) (Z.of_nat d))).
Proof.
  intros Hy Hm. unfold Calendar.weekdayUTC, calIso.
  rewrite split_on_dash; [|by apply Number_toString_digits].
  rewrite split_on_dash; [|by apply padStart2_digits].
  rewrite padStart2_digits; [|lia].
  unfold Calendar.field. simpl.
  rewrite !padStart2_value, !Number_toString_roundtrip; [done|lia|done|done].
Qed.

Lemma Date_UTC_day_shift y m (d : Z) :
  Calendar.Date_UTC_day y m d = (Calendar.Date_UTC_day y m 1 + d - 1)%Z.
Proof. unfold Calendar.Date_UTC_day, Calendar.MakeDay. lia. Qed.

Lemma calendar_column (F : Z) (d : nat) :
  let o := Z.to_nat (((Calendar.getUTCDay F + 6) mod 7)%Z) in
  Calendar.getUTCDay (F + Z.of_nat (S d) - 1) = ((Z.of_nat ((7 + o + d) mod 7) + 1) mod 7)%Z.
Proof.
  intros o. unfold Calendar.getUTCDay in *.
  assert (Ho : Z.of_nat o = (((F + 4) mod 7 + 6) mod 7)%Z).
  { unfold o. rewrite Z2Nat.id; [done|]. apply Z.mod_pos_bound. lia. }
  rewrite Nat2Z.inj_mod, !Nat2Z.inj_add, Ho.
  Z.div_mod_to_equations. lia.
Qed.

(** In the calendar grid (seven columns, Monday first), a day cell gets
    the [mon] class exactly when it sits under the "Mon" header and the
    [fri] class exactly when it sits under the "Fri" header: the classes
    come from re-parsing the day's ISO string, the column from the
    weekday of the first of the month, and the two always agree. *)
Theorem renderCalendar_mon_fri_columns :
  forall today st j d iso mon fri badges,
    nth_error (renderCalendar today st) j = Some (Day d iso mon fri badges) ->
    (mon = true <-> nth_error (renderCalendar today st) (j mod 7) = Some (Header "Mon")) /\
    (fri = true <-> nth_error (renderCalendar today st) (j mod 7) = Some (Header "Fri")).
Proof.
  intros today st j d iso mon fri badges.
  unfold renderCalendar.
  set (parts := Calendar.split_on "-"%char (baseIso today st)).
  assert (Hhead : forall rest, j mod 7 < 7 ->
    nth_error (map Header ["Mon"; "Tue"; "Wed"; "Thu"; "Fri"; "Sat"; "Sun"] ++ rest)%list (j mod 7) =
    nth_error (map Header ["Mon"; "Tue"; "Wed"; "Thu"; "Fri"; "Sat"; "Sun"]) (j mod 7)).
  { intros rest Hlt. apply nth_error_app1. simpl. lia. }
  assert (Hj7 : j mod 7 < 7) by (apply Nat.mod_upper_bound; lia).
  rewrite Hhead; [|done].
  destruct (Calendar.field parts 0) as [by'|] eqn:Ey;
    [destruct (Calendar.field parts 1) as [bm|] eqn:Em|].
  2, 3: intros H; rewrite app_nil_r in H; apply nth_error_In in H;
        simpl in H; intuition discriminate.
  intros H.
  assert (Hy : (0 <= by')%Z).
  { unfold Calendar.field in Ey. case_match; [|done]. eapply digits_acc_nonneg; [|exact Ey]. lia. }
  assert (Hm : (0 <= bm)%Z).
  { unfold Calendar.field in Em. case_match; [|done]. eapply digits_acc_nonneg; [|exact Em]. lia. }
  set (F := Calendar.Date_UTC_day by' (bm - 1) 1) in *.
  set (o := Z.to_nat ((Calendar.getUTCDay F + 6) mod 7)) in *.
  set (n := Z.to_nat (Calendar.getUTCDate (Calendar.Date_UTC_day by' bm 0))) in *.
  assert (Hj : 7 + o <= j).
  { destruct (decide (j < 7 + o)) as [Hlt|]; [|lia]. exfalso.
    destruct (decide (j < 7)).
    - rewrite nth_error_app1 in H; [|simpl; lia].
      apply nth_error_In in H. simpl in H. intuition discriminate.
    - rewrite nth_error_app2 in H; [|simpl; lia]. rewrite nth_error_app1 in H; [|rewrite repeat_length; simpl; lia].
      apply nth_error_In, repeat_spec in H. discriminate. }
  rewrite nth_error_app2 in H; [|simpl; lia]. rewrite nth_error_app2 in H; [|rewrite repeat_length; simpl; lia].
  rewrite repeat_length in H. simpl length in H.
  rewrite nth_error_map in H.
  destruct (nth_error (seq 1 n) (j - 7 - o)) as [d'|] eqn:Ed; [|discriminate].
  simpl in H. injection H as <- <- <- <- <-.
  rewrite List.nth_error_seq in Ed.
  destruct (Nat.ltb (j - 7 - o) n); [|discriminate]. injection Ed as <-.
  unfold Calendar.isMon, Calendar.isFri, Calendar.weekday_is.
  rewrite calIso_weekday; [|done|done].
  rewrite Date_UTC_day_shift. fold F.
  replace (1 + (j - 7 - o)) with (S (j - 7 - o)) by lia.
  rewrite calendar_column. fold o.
  replace (7 + o + (j - 7 - o)) with j by lia.
  destruct (j mod 7) as [|[|[|[|[|[|[|r]]]]]]]; [..|lia]; simpl; intuition congruence.
Qed.

Lemma renderCalendar_mon_fri_columns_witness :
  nth_error (renderCalendar "2024-02-10" (mkState 4 [] [] ∅)) 14 =
    Some (Day 5 "2024-02-05" true false []) /\
  nth_error (renderCalendar "2024-02-10" (mkState 4 [] [] ∅)) (14 mod 7) = Some (Header "Mon").
Proof.
  assert (H : nth_error (renderCalendar "2024-02-10" (mkState 4 [] [] ∅)) 14 =
                Some (Day 5 "2024-02-05" true false [])) by (vm_compute; reflexivity).
  split; [exact H|].
  exact (proj1 (proj1 (renderCalendar_mon_fri_columns _ _ _ _ _ _ _ _ H)) eq_refl).
Defined.

(** ** [computeMonFriCount]'s date parsing *)








Lemma legacy_replace_first_In (p : Legacy.LShift -> bool) f l x :
  In x (Legacy.replace_first p f l) -> In x l \/ exists y, In y l /\ x = f y.
Proof.
  induction l as [|y l IH]; cbn [Legacy.replace_first]; [done|].
  destruct (p y); intros [<-|Hx].
  - right. exists y. by split; [left|].
  - left. by right.
  - left. by left.
  - destruct (IH Hx) as [H|(z & Hz & ->)]; [left; by right|right; exists z; by split; [right|]].
Qed.

Lemma legacy_reachable_ids st :
  Legacy.Reachable st ->
  forall sh, In sh (Legacy.lshifts st) ->
  Legacy.lid sh = (Legacy.ldate sh ++ "-" ++ Legacy.toLowerCase (Legacy.ltype sh))%string.
Proof.
  induction 1 as [|cu sid st _ IH Hu|d t st _ IH|cu st _ IH|localDay coin st _ IH];
    intros sh Hsh.
  - done.
  - unfold Legacy.handleSelect in Hsh.
    destruct cu as [u|]; [|by apply IH].
    destruct (default false _); [by apply IH|].
    destruct (List.find _ _) as [x|]; [|by apply IH].
    destruct (includes _ _); [|destruct (Nat.leb _ _); [by apply IH|]];
      cbn [Legacy.lshifts] in Hsh;
      (destruct (legacy_replace_first_In _ _ _ _ Hsh) as [H|(y & Hy & ->)];
       [by apply IH|cbn [Legacy.set_assigned Legacy.lid Legacy.ldate Legacy.ltype]; by apply IH]).
  - unfold Legacy.addNewShift in Hsh.
    destruct (String.eqb d ""); [by apply IH|].
    destruct (existsb _ _); [by apply IH|].
    cbn [Legacy.lshifts] in Hsh. apply in_app_or in Hsh as [H|[<-|[]]]; [by apply IH|done].
  - destruct cu; by apply IH.
  - cbn [Legacy.resolveConflicts Legacy.lshifts] in Hsh.
    apply in_map_iff in Hsh as (y & <- & Hy).
    unfold Legacy.keep_chosen.
    destruct (Nat.leb _ _); [by apply IH|].
    destruct (Legacy.choose _ _ _ _); [|by apply IH].
    cbn [Legacy.set_assigned Legacy.lid Legacy.ldate Legacy.ltype]; by apply IH.
Qed.

(** Both versions of the admin form treat guardia types that differ only
    in the case of ASCII letters as the same guardia. In the app
    ([addShift]), when the registry holds a shift on date [d] whose type
    upper-cases like [t], adding [(d, t)] is refused as a duplicate and
    the state is unchanged. In src/script.js ([addNewShift]), in every
    reachable state, adding a type that lower-cases like the type of a
    shift already on that date changes nothing. *)
Theorem addShift_type_case_insensitive :
  (forall st d t s,
     (forall s, In s (shifts st) -> id s = idFor (date s) (type s) /\ date s <> "" /\ type s <> "") ->
     In s (shifts st) -> date s = d -> toUpperCase (type s) = toUpperCase t ->
     addShift st d t = (st, Some DuplicateShift)) /\
  (forall st d t sh,
     Legacy.Reachable st -> In sh (Legacy.lshifts st) -> Legacy.ldate sh = d ->
     Legacy.toLowerCase (Legacy.ltype sh) = Legacy.toLowerCase t ->
     Legacy.addNewShift d t st = st).
Proof.
  split.
  - intros st d t s Hwf Hs <- Hup.
    destruct (Hwf s Hs) as (Hid & Hd & Ht).
    unfold addShift.
    assert (Ht' : t <> "").
    { intros ->. destruct (type s); [done|discriminate]. }
    rewrite (proj2 (String.eqb_neq _ _) Hd), (proj2 (String.eqb_neq _ _) Ht'). cbn [orb].
    replace (existsb _ _) with true; [done|].
    symmetry. apply existsb_exists. exists s. split; [done|].
    apply String.eqb_eq. by rewrite Hid; unfold idFor; rewrite Hup.
  - intros st d t sh Hr Hsh <- Hlow.
    unfold Legacy.addNewShift.
    destruct (String.eqb _ _); [done|].
    replace (existsb _ _) with true; [done|].
    symmetry. apply existsb_exists. exists sh. split; [done|].
    apply String.eqb_eq. by rewrite (legacy_reachable_ids st Hr sh Hsh), Hlow.
Qed.

Lemma addShift_type_case_insensitive_witness :
  let st1 := fst (addShift initialState "2025-09-01" "Puerta") in
  addShift st1 "2025-09-01" "PUERTA" = (st1, Some DuplicateShift) /\
  Legacy.addNewShift "2025-09-01" "PUERTA" (Legacy.addNewShift "2025-09-01" "Puerta" Legacy.initial) =
    Legacy.addNewShift "2025-09-01" "Puerta" Legacy.initial.
Proof.
  split.
  - apply (proj1 addShift_type_case_insensitive _ _ _ (mkShift "2025-09-01__PUERTA" "2025-09-01" "Puerta")).
    + intros s Hs. vm_compute in Hs. destruct Hs as [<-|[]]. vm_compute. split; [reflexivity|split; discriminate].
    + vm_compute. left. reflexivity.
    + reflexivity.
    + vm_compute. reflexivity.
  - apply (proj2 addShift_type_case_insensitive _ _ _ (Legacy.mkLShift "2025-09-01-puerta" "2025-09-01" "Puerta" [])).
    + apply Legacy.reach_add, Legacy.reach_initial.
    + vm_compute. left. reflexivity.
    + reflexivity.
    + vm_compute. reflexivity.
Defined.

Lemma fold_insert_const_lookup {A} us (m : gmap string A) (x : A) v :
  (fold_left (fun m u => <[u := x]> m) us m) !! v =
  if existsb (String.eqb v) us then Some x else m !! v.
Proof.
  revert m. induction us as [|u us IH]; intros m; simpl; [done|].
  rewrite IH. destruct (existsb (String.eqb v) us); [by rewrite orb_true_r|].
  rewrite orb_false_r, lookup_insert, (String.eqb_sym v u).
  destruct (String.eqb_spec u v); case_decide; subst; done.
Qed.

(** [resetSetup] empties the registry, gives every listed resident an
    empty pick list and an unset finished flag, leaves the entries of
    names outside the list, the resident list and the quota as they were,
    and locks the app: the planning view refuses to open for any name, and
    finishing the setup is refused until a guardia has been added, after
    which it succeeds. *)
Theorem resetSetup_clears_and_relocks (a : App) :
  let a' := resetSetup a in
  setupDone a' = false /\ shifts (appState a') = [] /\
  slotsPerResident (appState a') = slotsPerResident (appState a) /\
  residents (appState a') = residents (appState a) /\
  (forall r, In r (residents (appState a)) ->
     picksOf (appState a') r = [] /\ finished a' !! r = Some false) /\
  (forall r, ~ In r (residents (appState a)) ->
     picks (appState a') !! r = picks (appState a) !! r /\ finished a' !! r = finished a !! r) /\
  (forall name, name <> "" -> startPlanning a' name = Some (inl SetupNotDone)) /\
  adminFinish a' = (a', Some NoShifts) /\
  (forall d t, snd (appAddShift a' d t) = None ->
     snd (adminFinish (fst (appAddShift a' d t))) = None /\
     setupDone (fst (adminFinish (fst (appAddShift a' d t)))) = true).
Proof.
  cbn zeta. unfold resetSetup. cbn [setupDone appState finished shifts slotsPerResident residents picks].
  split; [done|]. split; [done|]. split; [done|]. split; [done|].
  split; [|split; [|split; [|split]]].
  - intros r Hr. unfold picksOf. cbn [picks].
    rewrite !fold_insert_const_lookup.
    replace (existsb (String.eqb r) (residents (appState a))) with true; [done|].
    symmetry. by apply (includes_In (residents (appState a)) r).
  - intros r Hr. rewrite !fold_insert_const_lookup.
    replace (existsb (String.eqb r) (residents (appState a))) with false; [done|].
    symmetry. apply not_true_iff_false. intros H. apply Hr. by apply (includes_In (residents (appState a)) r).
  - intros name Hn. unfold startPlanning. by rewrite (proj2 (String.eqb_neq _ _) Hn).
  - done.
  - intros d t. unfold appAddShift, addShift. cbn [appState shifts].
    destruct (String.eqb d "" || String.eqb t ""); [discriminate|].
    cbn [existsb]. intros _. done.
Qed.

Lemma resetSetup_clears_and_relocks_witness :
  let a' := resetSetup (mkApp true initialState (<["Resident 1" := true]> ∅)) in
  startPlanning a' "Resident 1" = Some (inl SetupNotDone) /\
  snd (adminFinish (fst (appAddShift a' "2025-09-01" "Puerta"))) = None.
Proof.
  destruct (resetSetup_clears_and_relocks (mkApp true initialState (<["Resident 1" := true]> ∅)))
    as (_ & _ & _ & _ & _ & _ & Hs & _ & Ha).
  split.
  - apply Hs. discriminate.
  - apply (Ha "2025-09-01" "Puerta"). vm_compute. reflexivity.
Defined.

Lemma legacy_replace_first_held (p : Legacy.LShift -> bool) f u l :
  (forall x, Legacy.lid (f x) = Legacy.lid x) ->
  (forall x, includes (Legacy.assigned (f x)) u = includes (Legacy.assigned x) u) ->
  map Legacy.lid (List.filter (fun sh => includes (Legacy.assigned sh) u) (Legacy.replace_first p f l)) =
  map Legacy.lid (List.filter (fun sh => includes (Legacy.assigned sh) u) l).
Proof.
  intros Hl Hi. induction l as [|x l IH]; cbn [Legacy.replace_first]; [done|].
  destruct (p x); cbn [List.filter].
  - rewrite Hi. destruct (includes _ u); [|done]. cbn [map]. by rewrite Hl.
  - destruct (includes _ u); [|done]. cbn [map]. by rewrite IH.
Qed.

Lemma includes_filter_neq l u v :
  u <> v -> includes (List.filter (fun x => negb (String.eqb x v)) l) u = includes l u.
Proof.
  intros Huv. induction l as [|x l IH]; [done|]. cbn [List.filter].
  destruct (String.eqb_spec x v) as [->|Hxv]; cbn [negb].
  - rewrite IH. unfold includes. cbn [existsb].
    by rewrite (proj2 (String.eqb_neq u v) Huv).
  - unfold includes in *. cbn [existsb]. by rewrite IH.
Qed.

Lemma includes_snoc_neq l u v :
  u <> v -> includes (l ++ [v])%list u = includes l u.
Proof.
  intros Huv. unfold includes. rewrite existsb_app. cbn [existsb].
  by rewrite (proj2 (String.eqb_neq u v) Huv), orb_false_r.
Qed.

Lemma legacy_event_keeps_finished e st u :
  default false (Legacy.finishedUsers st !! u) = true ->
  default false (Legacy.finishedUsers (Legacy.apply_event e st) !! u) = true.
Proof.
  intros Hf. destruct e as [cu sid|d t|cu|localDay coin]; cbn [Legacy.apply_event].
  - unfold Legacy.handleSelect. destruct cu as [v|]; [|done].
    destruct (default false (Legacy.finishedUsers st !! v)); [done|].
    destruct (List.find _ _); [|done].
    destruct (includes _ _); [done|]. by destruct (Nat.leb _ _).
  - unfold Legacy.addNewShift. destruct (String.eqb _ _); [done|]. by destruct (existsb _ _).
  - destruct cu as [v|]; [|done]. cbn [Legacy.finishSelection Legacy.finishedUsers].
    destruct (String.eqb_spec v u) as [->|Hvu]; [by rewrite lookup_insert_eq|].
    by rewrite lookup_insert_ne.
  - done.
Qed.

Lemma legacy_event_keeps_held e st u :
  default false (Legacy.finishedUsers st !! u) = true -> Legacy.is_resolve e = false ->
  Legacy.upicks (Legacy.apply_event e st) u = Legacy.upicks st u /\
  map Legacy.lid (List.filter (fun sh => includes (Legacy.assigned sh) u) (Legacy.lshifts (Legacy.apply_event e st))) =
  map Legacy.lid (List.filter (fun sh => includes (Legacy.assigned sh) u) (Legacy.lshifts st)).
Proof.
  intros Hf Hr. destruct e as [cu sid|d t|cu|localDay coin]; cbn [Legacy.apply_event].
  - unfold Legacy.handleSelect. destruct cu as [v|]; [|done].
    destruct (default false (Legacy.finishedUsers st !! v)) eqn:Hv; [done|].
    assert (Huv : u <> v) by (intros ->; congruence).
    destruct (List.find _ _); [|done].
    destruct (includes _ v); [|destruct (Nat.leb _ _); [done|]];
      (split; [unfold Legacy.upicks; cbn [Legacy.userPicks]; by rewrite lookup_insert_ne|]);
      cbn [Legacy.lshifts]; apply legacy_replace_first_held; try done;
      intros x; cbn [Legacy.set_assigned Legacy.assigned].
    + by apply includes_filter_neq.
    + by apply includes_snoc_neq.
  - unfold Legacy.addNewShift. destruct (String.eqb _ _); [done|]. destruct (existsb _ _); [done|].
    split; [done|]. cbn [Legacy.lshifts]. rewrite List.filter_app. cbn [List.filter Legacy.assigned].
    unfold includes at 2. cbn [existsb]. by rewrite app_nil_r.
  - by destruct cu.
  - discriminate.
Qed.

(** In src/script.js (and in the first version, whose [selectShift] and
    [finishSelection] are the same code), once a user has finished, no
    sequence of handlers unsets the flag: every later [handleSelect] of
    that user changes nothing. As long as [resolveConflicts] is not run,
    the user's pick list and the set of shifts whose [assigned] array
    holds the user stay exactly as they were, whatever the others do. *)
Theorem legacy_finished_user_locked evs st u :
  default false (Legacy.finishedUsers st !! u) = true ->
  let st' := Legacy.run evs st in
  default false (Legacy.finishedUsers st' !! u) = true /\
  (forall sid, Legacy.handleSelect (Some u) sid st' = st') /\
  (forallb (fun e => negb (Legacy.is_resolve e)) evs = true ->
   Legacy.upicks st' u = Legacy.upicks st u /\
   map Legacy.lid (List.filter (fun sh => includes (Legacy.assigned sh) u) (Legacy.lshifts st')) =
   map Legacy.lid (List.filter (fun sh => includes (Legacy.assigned sh) u) (Legacy.lshifts st))).
Proof.
  intros Hf. cbn zeta.
  assert (Hfin : forall evs st, default false (Legacy.finishedUsers st !! u) = true ->
            default false (Legacy.finishedUsers (Legacy.run evs st) !! u) = true).
  { intros es. induction es as [|e es IH]; intros s Hs; [done|].
    cbn [Legacy.run]. apply IH. by apply legacy_event_keeps_finished. }
  split; [by apply Hfin|]. split.
  - intros sid. unfold Legacy.handleSelect. by rewrite (Hfin evs st Hf).
  - revert st Hf. induction evs as [|e es IH]; intros s Hs Hnr; [done|].
    cbn [forallb] in Hnr. apply andb_prop in Hnr as [He Hes].
    cbn [Legacy.run].
    destruct (legacy_event_keeps_held e s u Hs) as [H1 H2]; [by destruct (Legacy.is_resolve e)|].
    destruct (IH (Legacy.apply_event e s)) as [H3 H4]; [by apply legacy_event_keeps_finished|done|].
    by rewrite H3, H4, H1, H2.
Qed.

Lemma legacy_finished_user_locked_witness :
  let st := Legacy.finishSelection (Some "Resident 1") Legacy.session in
  Legacy.upicks (Legacy.run [Legacy.Select (Some "Resident 1") "2025-09-01-puerta";
                             Legacy.AddShift "2025-09-08" "Traumato";
                             Legacy.Select (Some "Resident 2") "2025-09-01-puerta"] st) "Resident 1" =
  ["2025-09-01-puerta"].
Proof.
  cbn zeta.
  destruct (legacy_finished_user_locked
              [Legacy.Select (Some "Resident 1") "2025-09-01-puerta";
               Legacy.AddShift "2025-09-08" "Traumato";
               Legacy.Select (Some "Resident 2") "2025-09-01-puerta"]
              (Legacy.finishSelection (Some "Resident 1") Legacy.session) "Resident 1"
              ltac:(vm_compute; reflexivity)) as (_ & _ & H).
  destruct H as [H _]; [vm_compute; reflexivity|].
  rewrite H. vm_compute. reflexivity.
Defined.
